(** * The pipeline job of devspace: step runner, one-time guard, dependency printing

    A shallow embedding of [pipeline.PipelineJob] (its [Run], [doWork],
    [shouldExecuteStep] and [executeStep] methods) and of
    [cmd.printDependencyRecursive], with the properties their specification
    states about them.

    Go strings are byte strings and are modelled by [string]; a Go [error]
    value is modelled by the inductive [error] below and a nil error by
    [None].  The interpreter, the line scanner and the [Job] interface are
    not part of the sources: the first two are parameters, the third is a
    class with one modelled instance.  What depends on time (whether the
    run is cancelled, whether a parent is done when a [select] looks) is an
    input of the functions; a call that would block for ever has no
    result. *)

From Stdlib Require Import String Ascii List Bool Arith Lia NArith DecimalString.
Import ListNotations.
Open Scope string_scope.

Set Implicit Arguments.

(* ------------------------------------------------------------------ *)
(** ** Pieces of the Go library the code calls *)

Module strings.

(** Bytes that [strings.TrimSpace] treats as white space on its ASCII path:
    tab, line feed, vertical tab, form feed, carriage return, space. *)
Definition asciiSpace (c : ascii) : bool :=
  let n := N_of_ascii c in
  ((9 <=? n) && (n <=? 13) || (n =? 32))%N.

Definition byteIs (c : ascii) (n : N) : bool := (N_of_ascii c =? n)%N.

Definition byteIn (c : ascii) (lo hi : N) : bool :=
  ((lo <=? N_of_ascii c) && (N_of_ascii c <=? hi))%N.

(** [leadingSpace s] removes one white-space rune from the front of [s]:
    an ASCII space byte, or the UTF-8 encoding of one of the other runes of
    [unicode.IsSpace] (U+0085, U+00A0, U+1680, U+2000..U+200A, U+2028,
    U+2029, U+202F, U+205F, U+3000).  A byte sequence that is not a valid
    encoding decodes to [utf8.RuneError], which is not a space. *)
Definition leadingSpace (s : string) : option string :=
  match s with
  | EmptyString => None
  | String c r =>
      if asciiSpace c then Some r
      else match r with
           | String d r' =>
               if byteIs c 194 && (byteIs d 133 || byteIs d 160) then Some r'
               else match r' with
                    | String e r'' =>
                        if byteIs c 225 && byteIs d 154 && byteIs e 128 then Some r''
                        else if byteIs c 226 && byteIs d 128 &&
                                (byteIn e 128 138 || byteIs e 168 || byteIs e 169
                                 || byteIs e 175) then Some r''
                        else if byteIs c 226 && byteIs d 129 && byteIs e 159 then Some r''
                        else if byteIs c 227 && byteIs d 128 && byteIs e 128 then Some r''
                        else None
                    | EmptyString => None
                    end
           | EmptyString => None
           end
  end.

Fixpoint rev (s : string) : string :=
  match s with
  | EmptyString => EmptyString
  | String c r => rev r ++ String c EmptyString
  end.

(** The same on the reversed string: one white-space rune removed from the
    end (the bytes of the rune appear last byte first). *)
Definition trailingSpaceRev (s : string) : option string :=
  match s with
  | EmptyString => None
  | String c r =>
      if asciiSpace c then Some r
      else match r with
           | String d r' =>
               if byteIs d 194 && (byteIs c 133 || byteIs c 160) then Some r'
               else match r' with
                    | String e r'' =>
                        if byteIs e 225 && byteIs d 154 && byteIs c 128 then Some r''
                        else if byteIs e 226 && byteIs d 128 &&
                                (byteIn c 128 138 || byteIs c 168 || byteIs c 169
                                 || byteIs c 175) then Some r''
                        else if byteIs e 226 && byteIs d 129 && byteIs c 159 then Some r''
                        else if byteIs e 227 && byteIs d 128 && byteIs c 128 then Some r''
                        else None
                    | EmptyString => None
                    end
           | EmptyString => None
           end
  end.

(** Repeated removal; the fuel is the length of the string, which bounds
    the number of runes. *)
Fixpoint dropWhile (next : string -> option string) (fuel : nat) (s : string) : string :=
  match fuel with
  | O => s
  | S fuel' =>
      match next s with
      | Some r => dropWhile next fuel' r
      | None => s
      end
  end.

Definition TrimLeftSpace (s : string) : string :=
  dropWhile leadingSpace (String.length s) s.

Definition TrimRightSpace (s : string) : string :=
  rev (dropWhile trailingSpaceRev (String.length s) (rev s)).

(** [strings.TrimSpace]: all leading and trailing white space removed. *)
Definition TrimSpace (s : string) : string :=
  TrimRightSpace (TrimLeftSpace s).

(** [strings.Contains s substr]. *)
Fixpoint Contains (s substr : string) : bool :=
  if String.prefix substr s then true
  else match s with
       | EmptyString => false
       | String _ r => Contains r substr
       end.

(** Decimal rendering of a non-negative integer, as the verb [%d] prints it. *)
Definition itoa (n : nat) : string := NilEmpty.string_of_uint (Nat.to_uint n).

End strings.

(* ------------------------------------------------------------------ *)
(** ** Errors *)

(** The error values that flow through the pipeline job.  [ExitStatus] is the
    interpreter's exit-status error ([interp.ExitStatus], an unsigned byte),
    [ShellError] any other failure of the interpreter, [Errorf] an error built
    by [fmt.Errorf] and [Wrapf] one built by [errors.Wrapf]. *)
Inductive error : Type :=
| ExitStatus (status : N)
| ShellError (msg : string)
| Errorf (msg : string)
| Wrapf (cause : error) (msg : string).

(** The text of an error, [err.Error()]. *)
Fixpoint Error (e : error) : string :=
  match e with
  | ExitStatus n => "exit status " ++ strings.itoa (N.to_nat n)
  | ShellError msg => msg
  | Errorf msg => msg
  | Wrapf cause msg => msg ++ ": " ++ Error cause
  end.

Module interp.
(** [interp.IsExitStatus]: the exit status carried by an error, looked up
    through the chain of wrapped causes. *)
Fixpoint IsExitStatus (e : error) : option N :=
  match e with
  | ExitStatus n => Some n
  | Wrapf cause _ => IsExitStatus cause
  | ShellError _ | Errorf _ => None
  end.
End interp.

(** [status, ok := interp.IsExitStatus(err); ok && status == 1]. *)
Definition isExitStatus1 (e : error) : bool :=
  match interp.IsExitStatus e with
  | Some n => (n =? 1)%N
  | None => false
  end.

(* ------------------------------------------------------------------ *)
(** ** Configuration records (package [latest]) *)

Module latest.

Record PipelineStep : Type := {
  Run : string;
  Directory : string;
  Env : list (string * string);
  If : string
}.

(** The rerun policy; its contents are never read by the pipeline job. *)
Inductive PipelineJobRerun : Type := Rerun_policy.

Record PipelineJob : Type := {
  Steps : list PipelineStep;
  Rerun : option PipelineJobRerun
}.

End latest.

(* ------------------------------------------------------------------ *)
(** ** The pipeline job (package [pipeline]) *)

Module pipeline.

(** The two output streams of a command. *)
Inductive Stream : Type := Stdout | Stderr.

(** A record received by the logger; the step runner only logs at info level. *)
Inductive LogRecord : Type := Info (text : string).

(** State of a [sync.Once]. *)
Inductive Once : Type := NotStarted | InProgress | Completed.

(** Which case a [select] over the cancellation signal and a parent's
    completion signal takes. *)
Inductive SelectCase : Type := CtxDone | ParentDone.

(** What a [select] statement finds when it is evaluated: which of its two
    channels are ready, and the case the runtime picks when both are. *)
Record GateView : Type := {
  ctxReady : bool;
  parentReady : bool;
  pick : SelectCase
}.

(** Go's [select]: the only ready case is taken; among several ready cases
    the runtime chooses; with none ready the statement keeps blocking. *)
Definition selectCase (v : GateView) : option SelectCase :=
  match ctxReady v, parentReady v with
  | true, false => Some CtxDone
  | false, true => Some ParentDone
  | true, true => Some (pick v)
  | false, false => None
  end.

(** Data written by a command to one of its streams, in order. *)
Definition sameStream (s s' : Stream) : bool :=
  match s, s' with
  | Stdout, Stdout | Stderr, Stderr => true
  | _, _ => false
  end.

Definition written (s : Stream) (ws : list (Stream * string)) : string :=
  String.concat "" (map snd (filter (fun w => sameStream (fst w) s) ws)).

(** Data written to a sink shared by both streams, in order of writing. *)
Definition piped (ws : list (Stream * string)) : string :=
  String.concat "" (map snd ws).

(** A [context.Context] value: the handle of a cancellation signal.
    Whether the signal has fired changes over time: the gating loop of
    [Run] reads it through [GateView], the interpreter and the job, which
    are handed the value, through the world they act on. *)
Inductive Signal : Type := signal (id : nat).

(** A scanner over a stream: [bufio.Scanner] with the split function that
    [scanner.NewScanner] (package [util/scanner]) gives it.  [complete buf]
    are the tokens it yields from the bytes it holds while more may come,
    and the bytes it keeps; [atEOF buf] are the tokens it yields from the
    kept bytes once the stream has ended. *)
Record Scanner : Type := {
  complete : string -> list string * string;
  atEOF : string -> list string
}.

(** The tokens of a whole stream. *)
Definition scanAll (sc : Scanner) (text : string) : list string :=
  let (ls, kept) := complete sc text in (ls ++ atEOF sc kept)%list.

(** A scanner fed through an [io.Pipe] by the writes [ds] of a command.
    A write to the pipe returns only when the scanner has read its data,
    and the scanner reads again only after it has yielded every token it
    holds.  So the tokens completed by a write are with the consumer before
    the command's next write returns: these are the first component.  The
    tokens completed by the last write, and those of the end of the stream
    (the pipe is closed when the step returns), are yielded beside whatever
    follows the command: these are the second component. *)
Fixpoint feed (sc : Scanner) (kept : string) (ds : list string)
  : list string * list string :=
  match ds with
  | [] => ([], atEOF sc kept)
  | d :: ds' =>
      let (ls, kept') := complete sc (kept ++ d) in
      match ds' with
      | [] => ([], (ls ++ atEOF sc kept')%list)
      | _ :: _ =>
          let (during, tail) := feed sc kept' ds' in ((ls ++ during)%list, tail)
      end
  end.

(** A scanner whose tokens do not depend on how the stream is cut into
    reads, as is the case of a line scanner. *)
Definition Streaming (sc : Scanner) : Prop :=
  complete sc "" = ([], "") /\
  (forall a, complete sc (snd (complete sc a)) = ([], snd (complete sc a))) /\
  (forall a b,
      complete sc (a ++ b) =
      (fst (complete sc a) ++ fst (complete sc (snd (complete sc a) ++ b)),
       snd (complete sc (snd (complete sc a) ++ b)))%list).

(** [Subsequence l1 l2]: [l1] is [l2] with some elements left out, the
    others in the same order. *)
Inductive Subsequence {A : Type} : list A -> list A -> Prop :=
| sub_nil : Subsequence [] []
| sub_skip (x : A) (l1 l2 : list A) : Subsequence l1 l2 -> Subsequence l1 (x :: l2)
| sub_take (x : A) (l1 l2 : list A) : Subsequence l1 l2 -> Subsequence (x :: l1) (x :: l2).

Section Pipeline.

(** External collaborators.  [World] is whatever commands read and change;
    [ConfigT] the resolved configuration carried by the context; the
    registry and dev-pod manager are handles given to the command
    dispatcher; [osArgs] is [os.Args[1:]]. *)
Variable World : Type.
Variable ConfigT : Type.
Variable RegistryT : Type.
Variable DevPodManagerT : Type.
Variable osArgs : list string.

(** The execution context: [Cancel] is its field [Context], the
    cancellation signal, [Config] the configuration.  What its logger has
    received is part of [State]. *)
Record Context : Type := { Cancel : Signal; Config : ConfigT }.

(** [engine.NewExecHandler(ctx, registry, devPodManager, live)]. *)
Record ExecHandler : Type := NewExecHandler {
  handlerCtx : Context;
  handlerRegistry : RegistryT;
  handlerDevPods : DevPodManagerT;
  handlerLive : bool
}.

(** [env.NewVariableEnvProvider(config, stepEnv)]. *)
Record EnvProvider : Type := NewVariableEnvProvider {
  envConfig : ConfigT;
  envStep : list (string * string)
}.

(** The arguments of one call of [engine.ExecuteShellCommand], the two
    writers apart (the caller routes what the command writes). *)
Record ShellCall : Type := {
  callCtx : Signal;
  command : string;
  args : list string;
  directory : string;
  envProvider : EnvProvider;
  handler : ExecHandler
}.

(** What a command did: its writes in order, and its error. *)
Record ShellResult : Type := {
  writes : list (Stream * string);
  result : option error
}.

(** [engine.ExecuteShellCommand], the embedded interpreter. *)
Variable ExecuteShellCommand : ShellCall -> World -> ShellResult * World.

(** The scanner that [scanner.NewScanner] (package [util/scanner])
    returns. *)
Variable ScanLines : Scanner.

(** The state the step runner acts on.  [logged] are the records the logger
    has received from the steps by the time each of them returned, oldest
    first; [pending] are the records a scanner still had to hand over when
    its step returned (nothing waits for the scanners): the logger receives
    them at the scanner's pace, in this order for each scanner.  [calls] and
    [workRuns] are ghost fields: the history of interpreter calls, oldest
    first, and the number of times the work function [doWork] has been
    entered. *)
Record State : Type := {
  world : World;
  logged : list LogRecord;
  pending : list LogRecord;
  calls : list ShellCall;
  workRuns : nat
}.

(** The [Job] interface: [Start] with a work function, the completion
    signal, the terminal error.  [Await] is the receive [<-job.Done()]: it
    yields the job and the state as they are once the signal has fired,
    or nothing if it never fires. *)
Class JobInterface (J : Type) : Type := {
  Start : J -> Context -> (State -> option error * State) -> State ->
          option error * J * State;
  Await : J -> State -> option (J * State);
  JobError : J -> option error
}.

(** Modelled from the spec: a concrete [Job] (the sources hold none).
    A job whose own setup fails returns that error from [Start] and does
    nothing else; otherwise [Start] takes the work function and returns
    nil, the work function then runs once, the completion signal fires and
    the terminal error is the work function's error. *)
Record SimpleJob : Type := {
  setupError : option error;
  work : option (State -> option error * State);
  finished : bool;
  terminal : option error
}.

Definition SimpleJob_Start (b : SimpleJob) (ctx : Context)
           (f : State -> option error * State) (st : State)
  : option error * SimpleJob * State :=
  match setupError b with
  | Some e => (Some e, b, st)
  | None =>
      (None,
       {| setupError := None; work := Some f; finished := false;
          terminal := terminal b |},
       st)
  end.

Definition SimpleJob_Await (b : SimpleJob) (st : State)
  : option (SimpleJob * State) :=
  if finished b then Some (b, st)
  else match work b with
       | Some f =>
           let (r, st') := f st in
           Some ({| setupError := setupError b; work := None;
                    finished := true; terminal := r |}, st')
       | None => None
       end.

#[export] Instance SimpleJob_Job : JobInterface SimpleJob := {
  Start := SimpleJob_Start;
  Await := SimpleJob_Await;
  JobError := terminal
}.

Context (J : Type) {JobOps : JobInterface J}.

(** References to other nodes of the pipeline. *)
Definition NodeRef : Type := string.

Record PipelineJob : Type := {
  Name : string;
  DependencyRegistry : RegistryT;
  DevPodManager : DevPodManagerT;
  JobConfig : latest.PipelineJob;
  Job : J;
  Parents : list NodeRef;
  Children : list NodeRef;
  startOnce : Once;
  err : option error
}.

Definition set_err (e : option error) (j : PipelineJob) : PipelineJob :=
  {| Name := Name j; DependencyRegistry := DependencyRegistry j;
     DevPodManager := DevPodManager j; JobConfig := JobConfig j;
     Job := Job j; Parents := Parents j; Children := Children j;
     startOnce := startOnce j; err := e |}.

Definition set_Job (b : J) (j : PipelineJob) : PipelineJob :=
  {| Name := Name j; DependencyRegistry := DependencyRegistry j;
     DevPodManager := DevPodManager j; JobConfig := JobConfig j;
     Job := b; Parents := Parents j; Children := Children j;
     startOnce := startOnce j; err := err j |}.

Definition set_startOnce (o : Once) (j : PipelineJob) : PipelineJob :=
  {| Name := Name j; DependencyRegistry := DependencyRegistry j;
     DevPodManager := DevPodManager j; JobConfig := JobConfig j;
     Job := Job j; Parents := Parents j; Children := Children j;
     startOnce := o; err := err j |}.

(** One interpreter call: the world advances and the call is recorded. *)
Definition exec (c : ShellCall) (st : State) : ShellResult * State :=
  let (r, w) := ExecuteShellCommand c (world st) in
  (r, {| world := w; logged := logged st; pending := pending st;
         calls := calls st ++ [c]; workRuns := workRuns st |}).

(** The calls made with a live handler, that is, by [executeStep]. *)
Definition liveCalls (cs : list ShellCall) : list ShellCall :=
  filter (fun c => handlerLive (handler c)) cs.

(** What the scanner goroutine of [executeStep] does with the lines of the
    pipe: it hands each to [ctx.Log.Info]. *)
Definition logLines (lines : list string * list string) (st : State) : State :=
  {| world := world st; logged := logged st ++ map Info (fst lines);
     pending := pending st ++ map Info (snd lines);
     calls := calls st; workRuns := workRuns st |}.

(** The call [shouldExecuteStep] makes. *)
Definition conditionCall (ctx : Context) (j : PipelineJob)
           (step : latest.PipelineStep) : ShellCall :=
  {| callCtx := Cancel ctx;
     command := latest.Run step;
     args := osArgs;
     directory := latest.Directory step;
     envProvider := NewVariableEnvProvider (Config ctx) (latest.Env step);
     handler := NewExecHandler ctx (DependencyRegistry j) (DevPodManager j) false |}.

(** The call [executeStep] makes. *)
Definition bodyCall (ctx : Context) (j : PipelineJob)
           (step : latest.PipelineStep) : ShellCall :=
  {| callCtx := Cancel ctx;
     command := latest.Run step;
     args := osArgs;
     directory := latest.Directory step;
     envProvider := NewVariableEnvProvider (Config ctx) (latest.Env step);
     handler := NewExecHandler ctx (DependencyRegistry j) (DevPodManager j) true |}.

(** [shouldExecuteStep]: both streams go to buffers of their own, and the
    command line given to the interpreter is [step.Run]. *)
Definition shouldExecuteStep (ctx : Context) (j : PipelineJob)
           (step : latest.PipelineStep) (st : State)
  : bool * option error * State :=
  let (r, st') := exec (conditionCall ctx j step) st in
  let stdout := written Stdout (writes r) in
  let stderr := written Stderr (writes r) in
  match result r with
  | Some e =>
      if isExitStatus1 e then (false, None, st')
      else (false,
            Some (Errorf ("error: " ++ Error e ++ " (stdout: " ++ stdout
                          ++ ", stderr: " ++ stderr ++ ")")),
            st')
  | None =>
      if strings.TrimSpace stdout =? "false" then (false, None, st')
      else (true, None, st')
  end.

(** [executeStep]: both streams go to one pipe, whose lines a scanner
    running beside the command forwards to the logger at info level; the
    interpreter's error is returned as it is.  The step returns when the
    command has, closing the pipe, without waiting for the scanner: the
    lines the command's last write completed and the line the end of the
    stream completes are still to be handed over then. *)
Definition executeStep (ctx : Context) (j : PipelineJob)
           (step : latest.PipelineStep) (st : State)
  : option error * State :=
  let (r, st') := exec (bodyCall ctx j step) st in
  (result r, logLines (feed ScanLines "" (map snd (writes r))) st').

(** The loop of [doWork], from step index [i] on. *)
Fixpoint doSteps (ctx : Context) (j : PipelineJob) (i : nat)
         (steps : list latest.PipelineStep) (st : State)
  : option error * State :=
  match steps with
  | [] => (None, st)
  | step :: rest =>
      let '(execute, e, st1) :=
        if latest.If step =? "" then (true, None, st)
        else shouldExecuteStep ctx j step st in
      match e with
      | Some e =>
          (Some (Wrapf e ("error checking if at step " ++ strings.itoa i)), st1)
      | None =>
          if execute then
            match executeStep ctx j step st1 with
            | (Some e, st2) => (Some e, st2)
            | (None, st2) => doSteps ctx j (S i) rest st2
            end
          else doSteps ctx j (S i) rest st1
      end
  end.

Definition enterWork (st : State) : State :=
  {| world := world st; logged := logged st; pending := pending st;
     calls := calls st; workRuns := S (workRuns st) |}.

(** [doWork], the work function given to the job. *)
Definition doWork (ctx : Context) (j : PipelineJob) (st : State)
  : option error * State :=
  doSteps ctx j 0 (latest.Steps (JobConfig j)) (enterWork st).

(** Outcome of the loop over the parents. *)
Inductive Gating : Type := Proceed | Cancelled | Blocked.

(** The gating loop: one [select] per parent, in order; [gate k] is what
    the [k]-th [select] finds. *)
Fixpoint waitParents (gate : nat -> GateView) (k : nat) (parents : list NodeRef)
  : Gating :=
  match parents with
  | [] => Proceed
  | _ :: rest =>
      match selectCase (gate k) with
      | Some CtxDone => Cancelled
      | Some ParentDone => waitParents gate (S k) rest
      | None => Blocked
      end
  end.

(** The function [Run] hands to [startOnce.Do].  [None]: it never returns
    (a [select] or the receive on the job's completion signal blocks for
    ever). *)
Definition startBody (ctx : Context) (gate : nat -> GateView)
           (j : PipelineJob) (st : State) : option (PipelineJob * State) :=
  match waitParents gate 0 (Parents j) with
  | Blocked => None
  | Cancelled => Some (j, st)
  | Proceed =>
      (* start the actual job *)
      let '(r, b, st1) := Start (Job j) ctx (doWork ctx j) st in
      match r with
      | Some e => Some (set_err (Some e) (set_Job b j), st1)
      | None =>
          (* wait until job is finished *)
          match Await b st1 with
          | None => None
          | Some (b', st2) =>
              let j' := set_Job b' j in
              match JobError b' with
              | Some e => Some (set_err (Some e) j', st2)
              | None =>
                  match latest.Rerun (JobConfig j) with
                  | Some _ => Some (j', st2)
                  | None => Some (j', st2)
                  end
              end
          end
      end
  end.

(** [Run], called on a node that no other caller is inside of.  A call
    that finds the guard held by another caller waits for it ([None]
    here; the interleaving of several callers is [stepCaller] below). *)
Definition Run (ctx : Context) (gate : nat -> GateView)
           (j : PipelineJob) (st : State)
  : option (option error * PipelineJob * State) :=
  match startOnce j with
  | Completed => Some (err j, j, st)
  | InProgress => None
  | NotStarted =>
      match startBody ctx gate j st with
      | Some (j', st') =>
          let j'' := set_startOnce Completed j' in
          Some (err j'', j'', st')
      | None => None
      end
  end.

(** Successive calls of [Run] on one node, each with its own context and
    gate views; the errors they return are collected in order. *)
Fixpoint RunSeq (cs : list (Context * (nat -> GateView)))
         (j : PipelineJob) (st : State)
  : option (list (option error) * PipelineJob * State) :=
  match cs with
  | [] => Some ([], j, st)
  | (ctx, gate) :: cs' =>
      match Run ctx gate j st with
      | None => None
      | Some (r, j', st') =>
          match RunSeq cs' j' st' with
          | None => None
          | Some (rs, j'', st'') => Some (r :: rs, j'', st'')
          end
      end
  end.

(** *** Several callers of [Run] on one node

    Each caller is a thread of control that has called [Run]: it is before
    [startOnce.Do], inside the function given to it, or has returned. *)
Inductive Caller : Type :=
| Calling (ctx : Context) (gate : nat -> GateView)
| Inside (ctx : Context) (gate : nat -> GateView)
| Returned (r : option error).

Record System : Type := {
  node : PipelineJob;
  store : State;
  callers : list Caller
}.

Fixpoint setCaller (k : nat) (c : Caller) (cs : list Caller) : list Caller :=
  match cs, k with
  | [], _ => []
  | _ :: cs', O => c :: cs'
  | c' :: cs', S k' => c' :: setCaller k' c cs'
  end.

(** One move of caller [k], as [sync.Once] allows it: the first caller to
    arrive takes the guard and goes inside; while it is inside the others
    wait; when the function returns the guard is marked done and the caller
    returns [j.err]; a caller that finds the guard done returns [j.err]
    at once.  [None]: caller [k] cannot move. *)
Definition stepCaller (k : nat) (s : System) : option System :=
  match nth_error (callers s) k with
  | Some (Calling ctx gate) =>
      match startOnce (node s) with
      | NotStarted =>
          Some {| node := set_startOnce InProgress (node s);
                  store := store s;
                  callers := setCaller k (Inside ctx gate) (callers s) |}
      | InProgress => None
      | Completed =>
          Some {| node := node s; store := store s;
                  callers := setCaller k (Returned (err (node s))) (callers s) |}
      end
  | Some (Inside ctx gate) =>
      match startBody ctx gate (node s) (store s) with
      | Some (j', st') =>
          Some {| node := set_startOnce Completed j';
                  store := st';
                  callers := setCaller k (Returned (err j')) (callers s) |}
      | None => None
      end
  | Some (Returned _) => None
  | None => None
  end.

(** The callers move as a scheduler picks them; picking a caller that
    cannot move changes nothing. *)
Fixpoint schedule (ks : list nat) (s : System) : System :=
  match ks with
  | [] => s
  | k :: ks' =>
      match stepCaller k s with
      | Some s' => schedule ks' s'
      | None => schedule ks' s
      end
  end.

(** [n] callers about to call [Run] on node [j]. *)
Definition initial (cs : list (Context * (nat -> GateView)))
           (j : PipelineJob) (st : State) : System :=
  {| node := j; store := st;
     callers := map (fun c => Calling (fst c) (snd c)) cs |}.

(** Every caller in the list satisfies [P]. *)
Definition eachCaller (P : Caller -> Prop) (cs : list Caller) : Prop :=
  forall k c, nth_error cs k = Some c -> P c.

Definition calling (c : Caller) : Prop :=
  match c with Calling _ _ => True | _ => False end.

(** A caller that is not inside the guarded function and, if it has
    returned, has returned [r]. *)
Definition callingOrReturned (r : option error) (c : Caller) : Prop :=
  match c with
  | Calling _ _ => True
  | Inside _ _ => False
  | Returned r' => r' = r
  end.

(** The three phases of a system that started from node [j0] and state
    [st0]: nobody has taken the guard; one caller is inside the guarded
    function, which has not returned yet; the guarded function has run,
    once, from [st0], and has returned. *)
Inductive Phase (j0 : PipelineJob) (st0 : State) (s : System) : Prop :=
| phase_idle :
    node s = j0 -> store s = st0 ->
    eachCaller calling (callers s) ->
    Phase j0 st0 s
| phase_busy (k : nat) (ctx : Context) (gate : nat -> GateView) :
    node s = set_startOnce InProgress j0 -> store s = st0 ->
    nth_error (callers s) k = Some (Inside ctx gate) ->
    (forall k' c, k' <> k -> nth_error (callers s) k' = Some c -> calling c) ->
    Phase j0 st0 s
| phase_done (ctx : Context) (gate : nat -> GateView)
             (j' : PipelineJob) (st' : State) :
    startBody ctx gate (set_startOnce InProgress j0) st0 = Some (j', st') ->
    node s = set_startOnce Completed j' -> store s = st' ->
    eachCaller (callingOrReturned (err j')) (callers s) ->
    Phase j0 st0 s.

(** A caller that has not returned is one of the callers [cs] the system
    started with. *)
Definition fromCallers (cs : list (Context * (nat -> GateView))) (c : Caller)
  : Prop :=
  match c with
  | Calling ctx gate | Inside ctx gate => In (ctx, gate) cs
  | Returned _ => True
  end.

(** The guard of [s] was taken by one of the callers [cs], whose guarded
    function has run from [j0] and [st0] and has left the node and the
    state of [s]. *)
Definition DoneBy (cs : list (Context * (nat -> GateView)))
           (j0 : PipelineJob) (st0 : State) (s : System) : Prop :=
  exists ctx gate j' st',
    In (ctx, gate) cs /\
    startBody ctx gate (set_startOnce InProgress j0) st0 = Some (j', st') /\
    node s = set_startOnce Completed j' /\ store s = st'.

End Pipeline.

End pipeline.

(* ------------------------------------------------------------------ *)
(** ** Views of a run of the pipeline job *)

Module trace.

Import pipeline.

(** The steps that have a condition. *)
Definition conditioned (steps : list latest.PipelineStep)
  : list latest.PipelineStep :=
  filter (fun step => negb (latest.If step =? "")) steps.

Section Trace.

Variables ConfigT RegistryT DevPodManagerT J : Type.

(** The calls made with a silent handler, that is, by [shouldExecuteStep]. *)
Definition silentCalls (cs : list (ShellCall ConfigT RegistryT DevPodManagerT))
  : list (ShellCall ConfigT RegistryT DevPodManagerT) :=
  filter (fun c => negb (handlerLive (handler c))) cs.

(** The node with another rerun policy in its configuration. *)
Definition withRerun (r : option latest.PipelineJobRerun)
           (j : PipelineJob RegistryT DevPodManagerT J)
  : PipelineJob RegistryT DevPodManagerT J :=
  {| Name := Name j; DependencyRegistry := DependencyRegistry j;
     DevPodManager := DevPodManager j;
     JobConfig := {| latest.Steps := latest.Steps (JobConfig j);
                     latest.Rerun := r |};
     Job := Job j; Parents := Parents j; Children := Children j;
     startOnce := startOnce j; err := err j |}.

End Trace.

End trace.

(* ------------------------------------------------------------------ *)
(** ** Printing the dependency tree (package [cmd]) *)

Module types.

#[local] Unset Elimination Schemes.

(** A value of the [types.Dependency] interface, seen through the methods
    the printer calls: [Name()], [ID()] and [Children()]. *)
Inductive Dependency : Type :=
| Dep (name : string) (id : string) (children : list Dependency).

#[local] Set Elimination Schemes.

Definition Name (d : Dependency) : string := let (n, _, _) := d in n.
Definition ID (d : Dependency) : string := let (_, i, _) := d in i.
Definition Children (d : Dependency) : list Dependency := let (_, _, c) := d in c.

End types.

Module cmd.

Import types.

(** The slice expression [s[:n]] on a string: the first [n] bytes, or a
    run-time panic ([None]) when [n] exceeds the length. *)
Definition slice_to (s : string) (n : nat) : option string :=
  if (n <=? String.length s)%nat then Some (String.substring 0 n s) else None.

(** How a call ends, with everything written to the log so far. *)
Inductive Outcome : Type :=
| Returns (log : list string)
| Panics (log : list string).

Definition newline : string := String "010"%char EmptyString.

(** [printDependencyRecursive]; [log] holds the strings given to
    [log.WriteString], oldest first. *)
Fixpoint printDependencyRecursive (prefix : string) (dep : Dependency)
         (log : list string) : Outcome :=
  match dep with
  | Dep name id children =>
      match slice_to id 5 with
      | None => Panics log
      | Some id5 =>
          (fix range (cs : list Dependency) (log : list string) : Outcome :=
             match cs with
             | [] => Returns log
             | child :: cs' =>
                 match printDependencyRecursive (prefix ++ "--") child log with
                 | Returns log' => range cs' log'
                 | Panics log' => Panics log'
                 end
             end)
            children
            (List.app log [prefix ++ "> " ++ name ++ " (ID: " ++ id5 ++ ")" ++ newline])
      end
  end.

(** The loop over [dep.Children()], by name. *)
Fixpoint printChildren (prefix : string) (cs : list Dependency)
         (log : list string) : Outcome :=
  match cs with
  | [] => Returns log
  | child :: cs' =>
      match printDependencyRecursive prefix child log with
      | Returns log' => printChildren prefix cs' log'
      | Panics log' => Panics log'
      end
  end.

Definition panics (o : Outcome) : bool :=
  match o with Panics _ => true | Returns _ => false end.

(** Some dependency of the tree has an ID shorter than five bytes. *)
Fixpoint hasShortID (dep : Dependency) : bool :=
  match dep with
  | Dep _ id children =>
      (String.length id <? 5)%nat || existsb hasShortID children
  end.

End cmd.

(* ------------------------------------------------------------------ *)
(** ** The print command (package [cmd], the rest of the file) *)

Module print.

#[local] Open Scope list_scope.

(** What the logger of the command receives: [log.WriteString],
    [log.Info], [log.Warnf] with its formatted text, and
    [logger.PrintTable] with its header and its rows. *)
Inductive LogEvent : Type :=
| WriteString (s : string)
| InfoLine (s : string)
| Warnf (s : string)
| PrintTable (header : list string) (rows : list (list string)).

(** How a call ends: it returns, with an error or nil, or it stops in a
    run-time panic. *)
Inductive Ended : Type :=
| Finished (err : option error)
| Crashed.

(** The global flags the command reads. *)
Record GlobalFlags : Type := {
  ConfigPath : string;
  KubeContext : string;
  Namespace : string;
  SwitchContext : bool
}.

(** The preorder walk of a dependency tree, every dependency with the
    prefix it is printed with. *)
Fixpoint walk (prefix : string) (dep : types.Dependency)
  : list (string * types.Dependency) :=
  match dep with
  | types.Dep _ _ children =>
      (prefix, dep) :: flat_map (walk (prefix ++ "--")%string) children
  end.

(** The line of one dependency. *)
Definition line (pd : string * types.Dependency) : string :=
  (fst pd ++ "> " ++ types.Name (snd pd) ++ " (ID: "
      ++ String.substring 0 5 (types.ID (snd pd)) ++ ")" ++ cmd.newline)%string.

Definition longID (pd : string * types.Dependency) : bool :=
  (5 <=? String.length (types.ID (snd pd)))%nat.

Fixpoint takeWhile {A : Type} (f : A -> bool) (l : list A) : list A :=
  match l with
  | [] => []
  | x :: l' => if f x then x :: takeWhile f l' else []
  end.

Section Print.

(** External collaborators.  [ClientT] is the kube client, [ConfigT] a
    loaded configuration ([config.Config]), [OptionsT] the config options
    the flags give, [ValueT] the value of a variable. *)
Variables ClientT ConfigT OptionsT ValueT : Type.

(** [config.Variables()], in the order in which the range over the map
    visits them, [config.Path()], and the rendering of a value by the
    verb [%v]. *)
Variable Variables : ConfigT -> list (string * ValueT).
Variable Path : ConfigT -> string.
Variable Sprint : ValueT -> string.

Definition rule : string := "-------------------".

(** [printExtraInfo].  The dependency printer only calls
    [log.WriteString]: the strings it writes are appended as events. *)
Definition printExtraInfo (config : ConfigT)
           (dependencies : list types.Dependency) (log : list LogEvent)
  : Ended * list LogEvent :=
  let log1 :=
    log ++ [WriteString (cmd.newline ++ rule ++ cmd.newline ++ cmd.newline
                         ++ "Vars:" ++ cmd.newline)%string] in
  let values :=
    map (fun nv => [fst nv; Sprint (snd nv)]) (Variables config) in
  let log2 :=
    if (0 <? length values)%nat
    then log1 ++ [PrintTable ["Name"; "Value"] values]
    else log1 ++ [InfoLine "No vars found"] in
  let log3 :=
    log2 ++ [WriteString (cmd.newline ++ rule ++ cmd.newline ++ cmd.newline
                          ++ "Loaded path: " ++ Path config
                          ++ cmd.newline ++ cmd.newline ++ rule
                          ++ cmd.newline ++ cmd.newline)%string] in
  if (0 <? length dependencies)%nat then
    let log4 :=
      log3 ++ [WriteString ("Dependency Tree:" ++ cmd.newline ++ cmd.newline
                            ++ "> Root" ++ cmd.newline)%string] in
    match cmd.printChildren "--" dependencies [] with
    | cmd.Returns lines =>
        (Finished None,
         log4 ++ map WriteString lines
              ++ [WriteString (cmd.newline ++ rule ++ cmd.newline
                               ++ cmd.newline)%string])
    | cmd.Panics lines => (Crashed, log4 ++ map WriteString lines)
    end
  else (Finished None, log3).

(** The command: its flags, and [Out], a writer given by what a [Write]
    returns, or nil. *)
Record PrintCmd : Type := {
  Flags : GlobalFlags;
  Out : option (string -> option error);
  SkipInfo : bool;
  EagerVars : bool;
  Dependency : string
}.

(** [NewPrintCmd] before the flags are parsed: output to the standard
    output, and the default of every flag. *)
Definition NewPrintCmd (globalFlags : GlobalFlags)
           (stdout : string -> option error) : PrintCmd :=
  {| Flags := globalFlags; Out := Some stdout; SkipInfo := false;
     EagerVars := false; Dependency := "" |}.

(** [loader.ConfigOptions]: what the flags give, and the kube client. *)
Record ConfigOptions : Type := {
  base : OptionsT;
  KubeClient : option ClientT
}.

(** The calls [Run] makes outside the file, each with the values it
    returns; [message.ConfigNotFound] is a text.  The calls are taken to
    return; several of them are handed the logger, and what they give it
    themselves is not part of the events below, which are those of the
    code of this file, in order. *)
Variable ConfigNotFound : string.
Variable ToConfigOptions : GlobalFlags -> OptionsT.
Variable SetDevSpaceRoot : string -> bool * option error.
Variable NewKubeClientFromContext :
  string -> string -> bool -> option ClientT * option error.
Variable LoadWithParser : string -> ConfigOptions -> ConfigT * option error.
Variable Load : string -> ConfigOptions -> ConfigT * option error.
Variable ResolveAll :
  ConfigT -> option ClientT -> ConfigOptions ->
  list types.Dependency * option error.
Variable ExecuteHooks :
  option ClientT -> ConfigT -> list types.Dependency -> string -> option error.
Variable GetDependencyByPath :
  list types.Dependency -> string -> option types.Dependency.
Variable DependencyConfig : types.Dependency -> ConfigT.
Variable Marshal : ConfigT -> string * option error.

(** What [Run] acts on: the events of the logger, and the byte strings
    given to [Out.Write], oldest first. *)
Record RunState : Type := {
  log : list LogEvent;
  out : list string
}.

Definition warn (text : string) (st : RunState) : RunState :=
  {| log := log st ++ [Warnf text]; out := out st |}.

(** The warning a failed call leaves in the log, if it failed. *)
Definition warning (text : string) (err : option error) : list LogEvent :=
  match err with
  | Some e => [Warnf (text ++ Error e)%string]
  | None => []
  end.

(** The end of [Run], from the marshalled configuration on. *)
Definition writeConfig (c : PrintCmd) (bsConfig : string) (st : RunState)
  : Ended * RunState :=
  match Out c with
  | Some write =>
      let st' := {| log := log st; out := out st ++ [bsConfig] |} in
      match write bsConfig with
      | Some e => (Finished (Some e), st')
      | None => (Finished None, st')
      end
  | None =>
      (Finished None,
       {| log := log st ++ [WriteString bsConfig]; out := out st |})
  end.

(** The configuration to print: the loaded one, or that of the dependency
    the flag names. *)
Definition selectConfig (c : PrintCmd) (loadedConfig : ConfigT)
           (dependencies : list types.Dependency) : ConfigT + error :=
  if (Dependency c =? "")%string then inl loadedConfig
  else match GetDependencyByPath dependencies (Dependency c) with
       | None =>
           inr (Errorf ("couldn't find dependency " ++ Dependency c
                        ++ ": make sure it gets loaded correctly")%string)
       | Some dep => inl (DependencyConfig dep)
       end.

(** [Run]. *)
Definition Run (c : PrintCmd) (st : RunState) : Ended * RunState :=
  let configOptions := ToConfigOptions (Flags c) in
  let (configExists, err) := SetDevSpaceRoot (ConfigPath (Flags c)) in
  match err with
  | Some e => (Finished (Some e), st)
  | None =>
      if negb configExists then (Finished (Some (Errorf ConfigNotFound)), st)
      else
        (* create kubectl client *)
        let (client, err) :=
          NewKubeClientFromContext (KubeContext (Flags c)) (Namespace (Flags c))
                                   (SwitchContext (Flags c)) in
        let st1 :=
          match err with
          | Some e =>
              warn ("Unable to create new kubectl client: " ++ Error e)%string st
          | None => st
          end in
        let options := {| base := configOptions; KubeClient := client |} in
        (* load config *)
        let (loadedConfig, err) :=
          if EagerVars c then LoadWithParser (ConfigPath (Flags c)) options
          else Load (ConfigPath (Flags c)) options in
        match err with
        | Some e => (Finished (Some e), st1)
        | None =>
            (* resolve dependencies *)
            let (dependencies, err) := ResolveAll loadedConfig client options in
            let st2 :=
              match err with
              | Some e =>
                  warn ("Error resolving dependencies: " ++ Error e)%string st1
              | None => st1
              end in
            (* execute plugin hook *)
            match ExecuteHooks client loadedConfig dependencies "print" with
            | Some e => (Finished (Some e), st2)
            | None =>
                match selectConfig c loadedConfig dependencies with
                | inr e => (Finished (Some e), st2)
                | inl config =>
                    let (bsConfig, err) := Marshal config in
                    match err with
                    | Some e => (Finished (Some e), st2)
                    | None =>
                        if SkipInfo c then writeConfig c bsConfig st2
                        else
                          let (ended, log') :=
                            printExtraInfo config dependencies (log st2) in
                          let st3 := {| log := log'; out := out st2 |} in
                          match ended with
                          | Crashed => (Crashed, st3)
                          | Finished (Some e) => (Finished (Some e), st3)
                          | Finished None => writeConfig c bsConfig st3
                          end
                    end
                end
            end
        end
  end.

End Print.

End print.

(* ------------------------------------------------------------------ *)
(** ** A small concrete setting, to run the definitions on *)

Module demo.

Import pipeline.

Definition nl : string := String "010"%char EmptyString.

(** The world is the number of commands run so far. *)
Definition World : Type := nat.

Definition Call : Type := ShellCall unit unit unit.

(** A toy interpreter for a handful of command lines. *)
Definition shell (c : Call) (w : World) : ShellResult * World :=
  let out ws r := ({| writes := ws; result := r |}, S w) in
  let cmd := command c in
  if cmd =? "true" then out [] None
  else if cmd =? "false" then out [] (Some (ExitStatus 1))
  else if cmd =? "exit 1" then out [] (Some (ExitStatus 1))
  else if cmd =? "exit 2" then out [] (Some (ExitStatus 2))
  else if cmd =? "echo false" then out [(Stdout, "false" ++ nl)] None
  else if cmd =? "echo hello; echo world" then
    out [(Stdout, "hello" ++ nl); (Stdout, "world" ++ nl)] None
  else if cmd =? "echo boom; echo bad >&2; exit 2" then
    out [(Stdout, "boom" ++ nl); (Stderr, "bad" ++ nl)] (Some (ExitStatus 2))
  else if cmd =? "printf 'a\nb\nc'" then
    out [(Stdout, "a" ++ nl ++ "b"); (Stdout, nl ++ "c")] None
  else out [] (Some (ExitStatus 127)).

(** A line scanner: the lines that end in a line feed within [s], [cur]
    being the start of the first, and the unfinished line that is left. *)
Fixpoint splitLines (cur : string) (s : string) : list string * string :=
  match s with
  | EmptyString => ([], cur)
  | String c r =>
      if Ascii.eqb c "010"%char then
        let (ls, kept) := splitLines "" r in (cur :: ls, kept)
      else splitLines (cur ++ String c EmptyString) r
  end.

(** At the end of the stream an unfinished line is a line, unless empty. *)
Definition lastLine (kept : string) : list string :=
  if kept =? "" then [] else [kept].

Definition lines : Scanner :=
  {| complete := splitLines ""; atEOF := lastLine |}.

(** No line feed in [s]. *)
Fixpoint noLF (s : string) : bool :=
  match s with
  | EmptyString => true
  | String c r => negb (Ascii.eqb c "010"%char) && noLF r
  end.

Definition ctx : Context unit := {| Cancel := signal 0; Config := tt |}.

Definition st0 : State World unit unit unit :=
  {| world := 0; logged := []; pending := []; calls := []; workRuns := 0 |}.

Definition step (run cond : string) : latest.PipelineStep :=
  {| latest.Run := run; latest.Directory := ""; latest.Env := [];
     latest.If := cond |}.

Definition job0 : pipeline.SimpleJob World unit unit unit :=
  {| setupError := None; work := None; finished := false; terminal := None |}.

(** A node that has not run yet. *)
Definition mkNode (steps : list latest.PipelineStep) (parents : list NodeRef)
  : PipelineJob unit unit (pipeline.SimpleJob World unit unit unit) :=
  {| Name := "job"; DependencyRegistry := tt; DevPodManager := tt;
     JobConfig := {| latest.Steps := steps; latest.Rerun := None |};
     Job := job0; Parents := parents; Children := [];
     startOnce := NotStarted; err := None |}.

(** Gate views: every parent has finished and nothing is cancelled; the
    run is cancelled while the parents are still running. *)
Definition parentsDone : nat -> GateView :=
  fun _ => {| ctxReady := false; parentReady := true; pick := ParentDone |}.

Definition cancelled : nat -> GateView :=
  fun _ => {| ctxReady := true; parentReady := false; pick := CtxDone |}.

(** The first [n] parents are found done, then the run is cancelled. *)
Definition cancelledAt (n : nat) : nat -> GateView :=
  fun k => if (k <? n)%nat then parentsDone k else cancelled k.

Definition Job : Type := SimpleJob World unit unit unit.

Definition JobOps : JobInterface World unit unit unit Job :=
  @SimpleJob_Job World unit unit unit.

Definition shouldExecuteStep := shouldExecuteStep (@nil string) shell (J := Job).
Definition executeStep := executeStep (@nil string) shell lines (J := Job).
Definition doSteps := doSteps (@nil string) shell lines (J := Job).
Definition doWork := doWork (@nil string) shell lines (J := Job).
Definition Run := Run (@nil string) shell lines (JobOps := JobOps).
Definition RunSeq := RunSeq (@nil string) shell lines (JobOps := JobOps).
Definition schedule := schedule (@nil string) shell lines (JobOps := JobOps).

End demo.

Module demo_jobs.

Import pipeline.

(** A job whose start fails. *)
Definition brokenJob : demo.Job :=
  {| setupError := Some (ShellError "no cluster"); work := None;
     finished := false; terminal := None |}.

(** A node, not run yet, that drives the job whose start fails. *)
Definition brokenNode (steps : list latest.PipelineStep) (parents : list NodeRef)
  : PipelineJob unit unit demo.Job :=
  set_Job brokenJob (demo.mkNode steps parents).

End demo_jobs.

Module demo_print.

Import print.

(** A toy setting for the print command: a configuration is the path it
    was loaded from, the kube client can never be created, the resolution
    of the dependencies fails but yields trees all the same, and the file
    short.yaml has a dependency with an ID of four bytes. *)
Definition Variables (config : string) : list (string * nat) :=
  if config =? "empty.yaml" then [] else [("IMAGE", 7)].

Definition Path (config : string) : string := config.

Definition ConfigNotFound : string := "Couldn't find a DevSpace configuration".

Definition ToConfigOptions (_ : GlobalFlags) : unit := tt.

Definition SetDevSpaceRoot (path : string) : bool * option error :=
  (negb (path =? "missing.yaml"), None).

Definition NewKubeClientFromContext (_ _ : string) (_ : bool)
  : option unit * option error :=
  (None, Some (ShellError "no kube config")).

Definition Load (path : string) (_ : ConfigOptions unit unit)
  : string * option error :=
  (path, None).

Definition ResolveAll (config : string) (_ : option unit)
           (_ : ConfigOptions unit unit)
  : list types.Dependency * option error :=
  (if config =? "short.yaml"
   then [types.Dep "api" "0123456789" [types.Dep "db" "abcd" []]]
   else [types.Dep "api" "0123456789" [types.Dep "db" "abcdef" []]],
   Some (ShellError "cache is stale")).

Definition ExecuteHooks (_ : option unit) (_ : string)
           (_ : list types.Dependency) (_ : string) : option error :=
  None.

Definition GetDependencyByPath (deps : list types.Dependency) (path : string)
  : option types.Dependency :=
  find (fun dep => types.Name dep =? path) deps.

Definition DependencyConfig (dep : types.Dependency) : string :=
  types.Name dep ++ "/devspace.yaml".

Definition Marshal (config : string) : string * option error :=
  ("path: " ++ config ++ cmd.newline, None).

Definition stdout (_ : string) : option error := None.

Definition flags (path : string) : GlobalFlags :=
  {| ConfigPath := path; KubeContext := ""; Namespace := "default";
     SwitchContext := false |}.

Definition st0 : RunState := {| log := []; out := [] |}.

Definition Run : PrintCmd -> RunState -> Ended * RunState :=
  print.Run Variables Path strings.itoa ConfigNotFound ToConfigOptions
            SetDevSpaceRoot NewKubeClientFromContext Load Load ResolveAll
            ExecuteHooks GetDependencyByPath DependencyConfig Marshal.

End demo_print.

(* ================================================================== *)
(** * Properties *)

(** ** Strings *)

Lemma prefix_app (s t : string) : String.prefix s (s ++ t) = true.
Proof.
  induction s as [|c s IH]; simpl.
  - now destruct t.
  - destruct (ascii_dec c c) as [_|n]; [exact IH | now destruct n].
Qed.

Lemma Contains_prefix (s sub : string) :
  String.prefix sub s = true -> strings.Contains s sub = true.
Proof.
  intros H. destruct s; cbn [strings.Contains]; rewrite H; reflexivity.
Qed.

Lemma Contains_app (a s b : string) : strings.Contains (a ++ s ++ b) s = true.
Proof.
  induction a as [|c a IH].
  - change ("" ++ s ++ b) with (s ++ b). apply Contains_prefix, prefix_app.
  - change (String c a ++ s ++ b) with (String c (a ++ s ++ b)).
    cbn [strings.Contains]. rewrite IH.
    now destruct (String.prefix s (String c (a ++ s ++ b))).
Qed.

Lemma string_app_assoc (a b c : string) :
  ((a ++ b) ++ c = a ++ (b ++ c))%string.
Proof.
  induction a as [|x a IH]; simpl; [reflexivity | now rewrite IH].
Qed.

Lemma string_app_nil_r (s : string) : (s ++ "")%string = s.
Proof. induction s as [|c s IH]; simpl; [reflexivity | now rewrite IH]. Qed.

Lemma concat_cons (d : string) (ds : list string) :
  String.concat "" (d :: ds) = (d ++ String.concat "" ds)%string.
Proof.
  destruct ds as [|d' ds]; cbn [String.concat].
  - now rewrite string_app_nil_r.
  - reflexivity.
Qed.

Lemma isExitStatus1_spec (e : error) :
  isExitStatus1 e = true <-> interp.IsExitStatus e = Some 1%N.
Proof.
  unfold isExitStatus1. destruct (interp.IsExitStatus e) as [n|].
  - rewrite N.eqb_eq. split; congruence.
  - split; discriminate.
Qed.

(** ** The step runner *)

(** From here on [++] is the concatenation of lists; that of strings is
    written with its scope. *)
Open Scope list_scope.

(** *** The scanner behind the pipe *)

Section ScannerFacts.

Import pipeline.

Variable sc : Scanner.
Hypothesis Hsc : Streaming sc.

Lemma complete_app (a b : string) :
  complete sc (a ++ b)%string =
  (fst (complete sc a) ++ fst (complete sc (snd (complete sc a) ++ b)%string),
   snd (complete sc (snd (complete sc a) ++ b)%string)).
Proof. apply Hsc. Qed.

Lemma complete_kept (a : string) :
  complete sc (snd (complete sc a)) = ([], snd (complete sc a)).
Proof. apply Hsc. Qed.

Lemma scanAll_app (a b : string) :
  scanAll sc (a ++ b)%string =
  fst (complete sc a) ++ scanAll sc (snd (complete sc a) ++ b)%string.
Proof.
  unfold scanAll. rewrite complete_app.
  destruct (complete sc (snd (complete sc a) ++ b)%string) as [l k]; cbn.
  now rewrite app_assoc.
Qed.

(** Cutting a stream into writes changes nothing to its tokens, and the
    tokens out before the last write returns are those the scanner can
    complete from the writes before it. *)
Lemma feed_lines (ds : list string) : forall kept,
  complete sc kept = ([], kept) ->
  fst (feed sc kept ds) ++ snd (feed sc kept ds) =
  scanAll sc (kept ++ String.concat "" ds)%string /\
  fst (feed sc kept ds) =
  fst (complete sc (kept ++ String.concat "" (removelast ds))%string).
Proof.
  induction ds as [|d ds IH]; intros kept Hk.
  - cbn. rewrite string_app_nil_r. unfold scanAll. rewrite Hk. split; reflexivity.
  - pose proof (complete_kept (kept ++ d)%string) as Hk'.
    destruct ds as [|d' ds].
    + cbn [feed String.concat removelast].
      unfold scanAll. rewrite string_app_nil_r, Hk.
      destruct (complete sc (kept ++ d)%string) as [ls kept']. split; reflexivity.
    + change (feed sc kept (d :: d' :: ds))
        with (let (ls, kept') := complete sc (kept ++ d)%string in
              let (during, tail) := feed sc kept' (d' :: ds) in
              (ls ++ during, tail)).
      change (removelast (d :: d' :: ds)) with (d :: removelast (d' :: ds)).
      rewrite (concat_cons d (d' :: ds)), (concat_cons d (removelast (d' :: ds))).
      rewrite <- (string_app_assoc kept d (String.concat "" (d' :: ds))),
        <- (string_app_assoc kept d (String.concat "" (removelast (d' :: ds)))).
      rewrite (scanAll_app (kept ++ d)),
        (complete_app (kept ++ d) (String.concat "" (removelast (d' :: ds)))).
      destruct (complete sc (kept ++ d)%string) as [ls kept']. cbn [fst snd] in *.
      destruct (IH kept' Hk') as [IH1 IH2].
      destruct (feed sc kept' (d' :: ds)) as [during tail]. cbn [fst snd] in *.
      split.
      * now rewrite <- app_assoc, IH1.
      * now rewrite IH2.
Qed.

End ScannerFacts.

Lemma map_removelast (A B : Type) (f : A -> B) (l : list A) :
  map f (removelast l) = removelast (map f l).
Proof.
  induction l as [|x l IH]; [reflexivity|].
  destruct l as [|y l]; [reflexivity|].
  change (removelast (x :: y :: l)) with (x :: removelast (y :: l)).
  cbn [map]. change (removelast (f x :: f y :: map f l))
    with (f x :: removelast (f y :: map f l)).
  f_equal. exact IH.
Qed.

Section StepRunnerFacts.

Import pipeline.

Variables World ConfigT RegistryT DevPodManagerT J : Type.
Variable osArgs : list string.
Variable ExecuteShellCommand :
  ShellCall ConfigT RegistryT DevPodManagerT -> World -> ShellResult * World.
Variable ScanLines : pipeline.Scanner.

Local Abbreviation State := (pipeline.State World ConfigT RegistryT DevPodManagerT).
Local Abbreviation PipelineJob := (pipeline.PipelineJob RegistryT DevPodManagerT J).
Local Abbreviation exec := (pipeline.exec ExecuteShellCommand).
Local Abbreviation conditionCall := (@pipeline.conditionCall ConfigT _ _ osArgs J).
Local Abbreviation bodyCall := (@pipeline.bodyCall ConfigT _ _ osArgs J).
Local Abbreviation shouldExecuteStep :=
  (@pipeline.shouldExecuteStep _ _ _ _ osArgs ExecuteShellCommand J).
Local Abbreviation executeStep :=
  (@pipeline.executeStep _ _ _ _ osArgs ExecuteShellCommand ScanLines J).
Local Abbreviation doSteps :=
  (@pipeline.doSteps _ _ _ _ osArgs ExecuteShellCommand ScanLines J).
Local Abbreviation doWork :=
  (@pipeline.doWork _ _ _ _ osArgs ExecuteShellCommand ScanLines J).

Implicit Types (ctx : Context ConfigT) (j : PipelineJob) (st : State)
         (step : latest.PipelineStep).

Lemma exec_state (c : ShellCall ConfigT RegistryT DevPodManagerT) st :
  let st' := snd (exec c st) in
  logged st' = logged st /\ calls st' = calls st ++ [c] /\
  workRuns st' = workRuns st.
Proof.
  unfold pipeline.exec. destruct (ExecuteShellCommand c (world st)); simpl. auto.
Qed.

(** The state after [shouldExecuteStep] is the state after its one call. *)
Lemma shouldExecuteStep_state ctx j step st :
  snd (shouldExecuteStep ctx j step st) = snd (exec (conditionCall ctx j step) st).
Proof.
  unfold pipeline.shouldExecuteStep.
  destruct (exec (conditionCall ctx j step) st) as [r st']; simpl.
  destruct (result r) as [e|].
  - destruct (isExitStatus1 e); reflexivity.
  - destruct (strings.TrimSpace _ =? "false")%string; reflexivity.
Qed.

(** The message built for an abnormal condition holds both buffers. *)
Lemma condition_message_contains (e : error) (out err : string) :
  let msg := ("error: " ++ Error e ++ " (stdout: " ++ out
              ++ ", stderr: " ++ err ++ ")")%string in
  strings.Contains msg out = true /\ strings.Contains msg err = true.
Proof.
  split.
  - rewrite <- (string_app_assoc (Error e)), <- (string_app_assoc "error: ").
    apply Contains_app.
  - rewrite <- (string_app_assoc out), <- (string_app_assoc " (stdout: "),
      <- (string_app_assoc (Error e)), <- (string_app_assoc "error: ").
    apply Contains_app.
Qed.

(** The decision of [shouldExecuteStep], by the outcome [r] of the command
    it hands to the interpreter, which is the [Run] text of the step: an
    error carrying exit status 1 gives skip with no error; any other error
    gives an error whose text holds both buffers; success with a standard
    output that trims to the text false gives skip; every other success
    gives execute. *)
Lemma shouldExecuteStep_by_outcome ctx j step st :
  let r := fst (exec (conditionCall ctx j step) st) in
  let stdout := written Stdout (writes r) in
  let stderr := written Stderr (writes r) in
  let decision := fst (shouldExecuteStep ctx j step st) in
  (forall e, result r = Some e -> interp.IsExitStatus e = Some 1%N ->
             decision = (false, None)) /\
  (forall e, result r = Some e -> interp.IsExitStatus e <> Some 1%N ->
             exists e', decision = (false, Some e') /\
                        strings.Contains (Error e') stdout = true /\
                        strings.Contains (Error e') stderr = true) /\
  (result r = None -> strings.TrimSpace stdout = "false" ->
   decision = (false, None)) /\
  (result r = None -> strings.TrimSpace stdout <> "false" ->
   decision = (true, None)).
Proof.
  unfold pipeline.shouldExecuteStep.
  destruct (exec (conditionCall ctx j step) st) as [r st']; cbn [fst].
  repeat split.
  - intros e Hr He. rewrite Hr.
    apply isExitStatus1_spec in He. now rewrite He.
  - intros e Hr He. rewrite Hr.
    destruct (isExitStatus1 e) eqn:E.
    + apply isExitStatus1_spec in E. contradiction.
    + eexists. split; [reflexivity|]. cbn [Error].
      apply condition_message_contains.
  - intros Hr Ht. rewrite Hr, Ht. reflexivity.
  - intros Hr Ht. rewrite Hr.
    apply String.eqb_neq in Ht. now rewrite Ht.
Qed.

Lemma exec_pending (c : ShellCall ConfigT RegistryT DevPodManagerT) st :
  pending (snd (exec c st)) = pending st.
Proof.
  unfold pipeline.exec. now destruct (ExecuteShellCommand c (world st)).
Qed.

(** C4, as the code has it.  The body of a step is run with both streams
    on one pipe, read by a line scanner beside the command.  The lines of
    what the command wrote, standard output and standard error together in
    the order of writing and however the text is cut into writes, go to the
    logger as info records, each once and in order.  They go live: every
    line that the writes before the last complete is in the log when the
    step returns; the lines left are with the scanner, which hands them
    over without the step waiting for it.  Nothing is kept besides: what
    the step returns is the interpreter's own error. *)
Theorem executeStep_forwards_output ctx j step st :
  Streaming ScanLines ->
  let r := fst (exec (bodyCall ctx j step) st) in
  let out := executeStep ctx j step st in
  exists during tail,
    logged (snd out) = logged st ++ map Info during /\
    pending (snd out) = pending st ++ map Info tail /\
    during ++ tail = scanAll ScanLines (piped (writes r)) /\
    during = fst (complete ScanLines (piped (removelast (writes r)))) /\
    fst out = result r.
Proof.
  intros Hsc. unfold pipeline.executeStep.
  pose proof (exec_state (bodyCall ctx j step) st) as H.
  pose proof (exec_pending (bodyCall ctx j step) st) as Hp.
  destruct (exec (bodyCall ctx j step) st) as [r st']; cbn [fst snd] in *.
  destruct H as (Hl & _ & _).
  destruct (@feed_lines ScanLines Hsc (map snd (writes r)) ""%string)
    as [Hall Hduring]; [apply Hsc|].
  exists (fst (feed ScanLines "" (map snd (writes r)))),
         (snd (feed ScanLines "" (map snd (writes r)))).
  cbn [logLines logged pending]. rewrite Hl, Hp.
  unfold piped. rewrite map_removelast.
  repeat split; assumption.
Qed.

(** *** The loop over the steps *)

(** One round of the loop, by cases on the condition and on the body. *)
Lemma doSteps_cons ctx j i step rest st :
  doSteps ctx j i (step :: rest) st =
  let '(execute, e, st1) :=
    if (latest.If step =? "")%string then (true, None, st)
    else shouldExecuteStep ctx j step st in
  match e with
  | Some e =>
      (Some (Wrapf e ("error checking if at step " ++ strings.itoa i)%string), st1)
  | None =>
      if execute then
        match executeStep ctx j step st1 with
        | (Some e, st2) => (Some e, st2)
        | (None, st2) => doSteps ctx j (S i) rest st2
        end
      else doSteps ctx j (S i) rest st1
  end.
Proof. reflexivity. Qed.

Ltac step_cases ctx j step st :=
  rewrite ?doSteps_cons;
  destruct (latest.If step =? "")%string;
  [ | destruct (shouldExecuteStep ctx j step st) as [[[|] [?e|]] ?st1] ];
  try match goal with
      | |- context [executeStep ctx j step ?s] =>
          destruct (executeStep ctx j step s) as [[?e|] ?st2]
      end.

(** A run of a prefix that ends without error hands over to the rest. *)
Lemma doSteps_app ctx j pre : forall i rest st st1,
  doSteps ctx j i pre st = (None, st1) ->
  doSteps ctx j i (pre ++ rest) st = doSteps ctx j (i + length pre) rest st1.
Proof.
  induction pre as [|step pre IH]; intros i rest st st1 H.
  - cbn in H. injection H as <-. cbn. now rewrite Nat.add_0_r.
  - cbn [app length]. rewrite Nat.add_succ_r, <- Nat.add_succ_l.
    revert H. step_cases ctx j step st; intros H;
      try discriminate; now apply IH.
Qed.

(** A run of a prefix that ends in an error is the run of the whole list. *)
Lemma doSteps_stop ctx j pre : forall i rest st e st1,
  doSteps ctx j i pre st = (Some e, st1) ->
  doSteps ctx j i (pre ++ rest) st = (Some e, st1).
Proof.
  induction pre as [|step pre IH]; intros i rest st e st1 H.
  - discriminate.
  - cbn [app]. revert H. step_cases ctx j step st; intros H;
      try assumption; now apply IH.
Qed.

Lemma liveCalls_app (cs cs' : list (ShellCall ConfigT RegistryT DevPodManagerT)) :
  liveCalls (cs ++ cs') = liveCalls cs ++ liveCalls cs'.
Proof. apply filter_app. Qed.

Lemma shouldExecuteStep_liveCalls ctx j step st :
  liveCalls (calls (snd (shouldExecuteStep ctx j step st))) = liveCalls (calls st).
Proof.
  rewrite shouldExecuteStep_state.
  destruct (exec_state (conditionCall ctx j step) st) as (_ & -> & _).
  rewrite liveCalls_app. cbn. apply app_nil_r.
Qed.

Lemma executeStep_calls ctx j step st :
  calls (snd (executeStep ctx j step st)) = calls st ++ [bodyCall ctx j step].
Proof.
  unfold pipeline.executeStep.
  pose proof (exec_state (bodyCall ctx j step) st) as H.
  destruct (exec (bodyCall ctx j step) st) as [r st']; cbn [fst snd] in *.
  destruct H as (_ & H & _). cbn [logLines calls]. exact H.
Qed.

(** The bodies that ran are those of a subsequence of the steps, in the
    order of the steps. *)
Lemma doSteps_liveCalls ctx j steps : forall i st,
  exists ran,
    Subsequence ran steps /\
    liveCalls (calls (snd (doSteps ctx j i steps st))) =
    liveCalls (calls st) ++ map (bodyCall ctx j) ran.
Proof.
  induction steps as [|step steps IH]; intros i st.
  - exists []. split; [constructor | cbn; now rewrite app_nil_r].
  - pose proof (shouldExecuteStep_liveCalls ctx j step st) as Hc.
    rewrite doSteps_cons.
    destruct (latest.If step =? "")%string.
    + pose proof (executeStep_calls ctx j step st) as Hb.
      destruct (executeStep ctx j step st) as [[e|] st2]; cbn [snd] in *.
      * exists [step]. split.
        -- apply sub_take. clear. induction steps; now constructor.
        -- rewrite Hb, liveCalls_app. reflexivity.
      * destruct (IH (S i) st2) as (ran & Hs & Hl).
        exists (step :: ran). split; [now constructor|].
        rewrite Hl, Hb, liveCalls_app. cbn. now rewrite <- app_assoc.
    + destruct (shouldExecuteStep ctx j step st) as [[execute [e|]] st1];
        cbn [snd] in *.
      * exists []. split.
        -- clear. apply sub_skip. induction steps; now constructor.
        -- cbn. now rewrite app_nil_r.
      * destruct execute.
        -- pose proof (executeStep_calls ctx j step st1) as Hb.
           destruct (executeStep ctx j step st1) as [[e|] st2]; cbn [snd] in *.
           ++ exists [step]. split.
              ** apply sub_take. clear. induction steps; now constructor.
              ** rewrite Hb, liveCalls_app, Hc. reflexivity.
           ++ destruct (IH (S i) st2) as (ran & Hs & Hl).
              exists (step :: ran). split; [now constructor|].
              rewrite Hl, Hb, liveCalls_app, Hc. cbn. now rewrite <- app_assoc.
        -- destruct (IH (S i) st1) as (ran & Hs & Hl).
           exists ran. split; [now constructor|].
           now rewrite Hl, Hc.
Qed.

(** The loop leaves the count of entries of the work function alone. *)
Lemma doSteps_workRuns ctx j steps : forall i st,
  workRuns (snd (doSteps ctx j i steps st)) = workRuns st.
Proof.
  assert (Hc : forall step st,
             workRuns (snd (shouldExecuteStep ctx j step st)) = workRuns st).
  { intros step st. rewrite shouldExecuteStep_state.
    now destruct (exec_state (conditionCall ctx j step) st) as (_ & _ & ->). }
  assert (Hb : forall step st,
             workRuns (snd (executeStep ctx j step st)) = workRuns st).
  { intros step st. unfold pipeline.executeStep.
    pose proof (exec_state (bodyCall ctx j step) st) as H.
    destruct (exec (bodyCall ctx j step) st) as [r st']; cbn [fst snd] in *.
    destruct H as (_ & _ & H). cbn [logLines workRuns]. exact H. }
  induction steps as [|step steps IH]; intros i st; [reflexivity|].
  rewrite doSteps_cons. specialize (Hc step st).
  destruct (latest.If step =? "")%string.
  - specialize (Hb step st).
    destruct (executeStep ctx j step st) as [[e|] st2]; cbn [snd] in *;
      [assumption | now rewrite IH].
  - destruct (shouldExecuteStep ctx j step st) as [[execute [e|]] st1];
      cbn [snd] in *; [assumption|].
    destruct execute; [|now rewrite IH].
    specialize (Hb step st1).
    destruct (executeStep ctx j step st1) as [[e|] st2]; cbn [snd] in *;
      [congruence | rewrite IH; congruence].
Qed.

(** C2, as the code has it.  Let [step] be the step at index [length pre]
    and let the steps before it end without error.  An abnormal evaluation
    of its condition stops the work function with that error wrapped with
    the index of the step; a failure of its body stops the work function
    with the error of the body itself, not wrapped. *)
Theorem doWork_error_reporting ctx j st pre step post st1 :
  latest.Steps (JobConfig j) = pre ++ step :: post ->
  doSteps ctx j 0 pre (enterWork st) = (None, st1) ->
  (forall execute e st2,
      latest.If step <> ""%string ->
      shouldExecuteStep ctx j step st1 = (execute, Some e, st2) ->
      doWork ctx j st =
      (Some (Wrapf e ("error checking if at step "
                      ++ strings.itoa (length pre))%string), st2)) /\
  (forall e st2,
      latest.If step = ""%string ->
      executeStep ctx j step st1 = (Some e, st2) ->
      doWork ctx j st = (Some e, st2)) /\
  (forall e st2 st3,
      latest.If step <> ""%string ->
      shouldExecuteStep ctx j step st1 = (true, None, st2) ->
      executeStep ctx j step st2 = (Some e, st3) ->
      doWork ctx j st = (Some e, st3)).
Proof.
  intros Hsteps Hpre. unfold pipeline.doWork. rewrite Hsteps.
  rewrite (@doSteps_app ctx j pre 0 (step :: post) _ _ Hpre), doSteps_cons.
  cbn [Nat.add]. repeat split.
  - intros execute e st2 Hif Hc. apply String.eqb_neq in Hif.
    now rewrite Hif, Hc.
  - intros e st2 Hif Hb. apply String.eqb_eq in Hif. now rewrite Hif, Hb.
  - intros e st2 st3 Hif Hc Hb. apply String.eqb_neq in Hif.
    now rewrite Hif, Hc, Hb.
Qed.

(** C7.  The bodies that the work function runs are those of a subsequence
    of the configured steps, in the configured order; once the run of a
    prefix of the steps has ended in an error, that is the result of the work
    function, whatever steps follow; and after a step whose condition says
    skip, the work function goes on with the steps that follow.  Step by
    step: with no step there is nothing to do; let the steps before [step]
    have ended without error, in the state [st1].  If [step] has no
    condition, its body is executed in [st1]; if its condition says execute,
    its body is executed in the state the check left.  In both cases an
    error of the body is the result of the work function, in the state the
    body left, whose last call is that body: no later step has run; a body
    without error is followed by the steps after it, from the state the
    body left.  An error of the condition check is the result of the work
    function, wrapped with the index, in the state the check left. *)
Theorem doWork_step_order ctx j st :
  let steps := latest.Steps (JobConfig j) in
  (exists ran,
      Subsequence ran steps /\
      liveCalls (calls (snd (doWork ctx j st))) =
      liveCalls (calls st) ++ map (bodyCall ctx j) ran) /\
  (forall pre post e st1,
      steps = pre ++ post ->
      doSteps ctx j 0 pre (enterWork st) = (Some e, st1) ->
      doWork ctx j st = (Some e, st1)) /\
  (forall pre step post st1 st2,
      steps = pre ++ step :: post ->
      doSteps ctx j 0 pre (enterWork st) = (None, st1) ->
      latest.If step <> ""%string ->
      shouldExecuteStep ctx j step st1 = (false, None, st2) ->
      doWork ctx j st = doSteps ctx j (S (length pre)) post st2) /\
  (steps = [] -> doWork ctx j st = (None, enterWork st)) /\
  (forall pre step post st1 st2,
      steps = pre ++ step :: post ->
      doSteps ctx j 0 pre (enterWork st) = (None, st1) ->
      (latest.If step = ""%string /\ st2 = st1) \/
      (latest.If step <> ""%string /\
       shouldExecuteStep ctx j step st1 = (true, None, st2)) ->
      calls (snd (executeStep ctx j step st2)) = calls st2 ++ [bodyCall ctx j step] /\
      doWork ctx j st =
      match executeStep ctx j step st2 with
      | (Some e, st3) => (Some e, st3)
      | (None, st3) => doSteps ctx j (S (length pre)) post st3
      end) /\
  (forall pre step post st1 execute e st2,
      steps = pre ++ step :: post ->
      doSteps ctx j 0 pre (enterWork st) = (None, st1) ->
      latest.If step <> ""%string ->
      shouldExecuteStep ctx j step st1 = (execute, Some e, st2) ->
      calls st2 = calls st1 ++ [conditionCall ctx j step] /\
      doWork ctx j st =
      (Some (Wrapf e ("error checking if at step "
                      ++ strings.itoa (length pre))%string), st2)).
Proof.
  cbn zeta. unfold pipeline.doWork. repeat apply conj.
  - destruct (doSteps_liveCalls ctx j (latest.Steps (JobConfig j)) 0 (enterWork st))
      as (ran & Hs & Hl).
    exists ran. split; [exact Hs | exact Hl].
  - intros pre post e st1 -> H. now apply doSteps_stop.
  - intros pre step post st1 st2 -> Hpre Hif Hc.
    rewrite (@doSteps_app ctx j pre 0 (step :: post) _ _ Hpre), doSteps_cons.
    cbn [Nat.add]. apply String.eqb_neq in Hif. now rewrite Hif, Hc.
  - intros ->. reflexivity.
  - intros pre step post st1 st2 -> Hpre Hrun.
    split; [apply executeStep_calls|].
    rewrite (@doSteps_app ctx j pre 0 (step :: post) _ _ Hpre), doSteps_cons.
    cbn [Nat.add]. destruct Hrun as [[Hif ->] | [Hif Hc]].
    + apply String.eqb_eq in Hif. now rewrite Hif.
    + apply String.eqb_neq in Hif. now rewrite Hif, Hc.
  - intros pre step post st1 execute e st2 -> Hpre Hif Hc. split.
    + pose proof (shouldExecuteStep_state ctx j step st1) as Hs.
      rewrite Hc in Hs. cbn [snd] in Hs. rewrite Hs.
      now destruct (exec_state (conditionCall ctx j step) st1) as (_ & -> & _).
    + rewrite (@doSteps_app ctx j pre 0 (step :: post) _ _ Hpre), doSteps_cons.
      cbn [Nat.add]. apply String.eqb_neq in Hif. now rewrite Hif, Hc.
Qed.

End StepRunnerFacts.

(** *** The step runner on concrete steps *)

(** C1.  A step whose condition is the command true and whose body is the
    command exit 1: the only command the interpreter is given is the body
    text, once, by the silent handler of the condition check; it ends with
    status 1, so the step is skipped and the work function returns nil.  The
    text of the condition is never run. *)
Theorem condition_check_runs_the_body_text :
  let node := demo.mkNode [demo.step "exit 1" "true"] [] in
  let out := demo.doWork demo.ctx node demo.st0 in
  map (fun c => (pipeline.command c, pipeline.handlerLive (pipeline.handler c)))
      (pipeline.calls (snd out)) = [("exit 1"%string, false)] /\
  fst out = None.
Proof. split; reflexivity. Qed.

(** The command line of the condition check is the [Run] text of the step,
    whatever its [If] text is, and the check writes nothing to the log. *)
Lemma shouldExecuteStep_command
      (World ConfigT RegistryT DevPodManagerT J : Type) (osArgs : list string)
      (sh : pipeline.ShellCall ConfigT RegistryT DevPodManagerT ->
            World -> pipeline.ShellResult * World)
      (ctx : pipeline.Context ConfigT)
      (j : pipeline.PipelineJob RegistryT DevPodManagerT J)
      (step : latest.PipelineStep)
      (st : pipeline.State World ConfigT RegistryT DevPodManagerT) :
  let st' := snd (pipeline.shouldExecuteStep osArgs sh ctx j step st) in
  pipeline.calls st' = pipeline.calls st ++ [pipeline.conditionCall osArgs ctx j step] /\
  pipeline.command (pipeline.conditionCall osArgs ctx j step) = latest.Run step /\
  pipeline.logged st' = pipeline.logged st.
Proof.
  cbn zeta. rewrite shouldExecuteStep_state.
  destruct (exec_state sh (pipeline.conditionCall osArgs ctx j step) st)
    as (Hl & Hc & _).
  repeat split; assumption.
Qed.

(** C2, counterexample.  The step at index 1 fails in its body with exit
    status 2: the work function returns that very error, which is no
    wrapped error and whose text does not name the index. *)
Lemma body_error_is_not_wrapped :
  let node := demo.mkNode [demo.step "true" ""; demo.step "exit 2" ""] [] in
  let e := ExitStatus 2 in
  fst (demo.doWork demo.ctx node demo.st0) = Some e /\
  Error e = "exit status 2"%string /\
  strings.Contains (Error e) (strings.itoa 1) = false.
Proof. repeat split. Qed.

(** C2, on concrete steps: a condition check that fails at index 1 is
    reported with that index, a body that fails at index 1 is reported as
    it is. *)
Lemma doWork_error_reporting_witness :
  fst (demo.doWork demo.ctx
         (demo.mkNode [demo.step "true" ""; demo.step "exit 2" "check"] [])
         demo.st0)
  = Some (Wrapf (Errorf "error: exit status 2 (stdout: , stderr: )")
                "error checking if at step 1") /\
  fst (demo.doWork demo.ctx
         (demo.mkNode [demo.step "true" ""; demo.step "exit 2" ""] [])
         demo.st0)
  = Some (ExitStatus 2).
Proof.
  unfold demo.doWork. split.
  - pose proof
      (@doWork_error_reporting demo.World unit unit unit demo.Job [] demo.shell
         demo.lines demo.ctx
         (demo.mkNode [demo.step "true" ""; demo.step "exit 2" "check"] [])
         demo.st0 [demo.step "true" ""] (demo.step "exit 2" "check") []
         (snd (demo.doSteps demo.ctx
                 (demo.mkNode [demo.step "true" ""; demo.step "exit 2" "check"] [])
                 0 [demo.step "true" ""] (pipeline.enterWork demo.st0)))
         eq_refl eq_refl) as (H & _ & _).
    erewrite H; [reflexivity | discriminate | reflexivity].
  - pose proof
      (@doWork_error_reporting demo.World unit unit unit demo.Job [] demo.shell
         demo.lines demo.ctx
         (demo.mkNode [demo.step "true" ""; demo.step "exit 2" ""] [])
         demo.st0 [demo.step "true" ""] (demo.step "exit 2" "") []
         (snd (demo.doSteps demo.ctx
                 (demo.mkNode [demo.step "true" ""; demo.step "exit 2" ""] [])
                 0 [demo.step "true" ""] (pipeline.enterWork demo.st0)))
         eq_refl eq_refl) as (_ & H & _).
    erewrite H; reflexivity.
Defined.

(** C3.  Steps whose body prints two lines and whose condition is a command
    that ends with status 1, one that ends with status 2, one that prints
    the text false; [outcome] is what the interpreter makes of such a
    command when it is given it.  The command the condition check hands to
    the interpreter is the body text, which succeeds and does not print
    false: in all three cases the check says execute, the body runs, and
    the work function returns nil.  With status 1 and with the text false
    the step is not skipped, with status 2 there is no error. *)
Theorem condition_outcome_is_that_of_the_body_text :
  let body := "echo hello; echo world"%string in
  let outcome cmd :=
    fst (demo.shell (pipeline.conditionCall [] demo.ctx (demo.mkNode [] [])
                       (demo.step cmd "")) 0) in
  let run cond :=
    demo.doWork demo.ctx (demo.mkNode [demo.step body cond] []) demo.st0 in
  let trace cond :=
    map (fun c => (pipeline.command c, pipeline.handlerLive (pipeline.handler c)))
        (pipeline.calls (snd (run cond))) in
  (pipeline.result (outcome "exit 1"%string) = Some (ExitStatus 1) /\
   fst (run "exit 1"%string) = None /\
   trace "exit 1"%string = [(body, false); (body, true)]) /\
  (pipeline.result (outcome "exit 2"%string) = Some (ExitStatus 2) /\
   fst (run "exit 2"%string) = None /\
   trace "exit 2"%string = [(body, false); (body, true)]) /\
  (outcome "echo false"%string =
   {| pipeline.writes := [(pipeline.Stdout, ("false" ++ demo.nl)%string)];
      pipeline.result := None |} /\
   fst (run "echo false"%string) = None /\
   trace "echo false"%string = [(body, false); (body, true)]).
Proof. repeat split. Qed.

(** The decision by the outcome of the command, on concrete command lines
    given as the [Run] text: one that ends with status 1, one that ends with
    status 2 after writing to both streams, one that prints the text false,
    and one that prints nothing. *)
Lemma shouldExecuteStep_by_outcome_examples :
  let check cmd :=
    fst (demo.shouldExecuteStep demo.ctx (demo.mkNode [] [])
           (demo.step cmd "check") demo.st0) in
  check "exit 1"%string = (false, None) /\
  (exists e', check "echo boom; echo bad >&2; exit 2"%string = (false, Some e') /\
              strings.Contains (Error e') ("boom" ++ demo.nl)%string = true /\
              strings.Contains (Error e') ("bad" ++ demo.nl)%string = true) /\
  check "echo false"%string = (false, None) /\
  check "true"%string = (true, None).
Proof.
  cbn zeta. unfold demo.shouldExecuteStep.
  pose proof (fun cmd =>
    @shouldExecuteStep_by_outcome demo.World unit unit unit demo.Job []
      demo.shell demo.ctx (demo.mkNode [] []) (demo.step cmd "check") demo.st0)
    as H.
  repeat apply conj.
  - destruct (H "exit 1"%string) as (H1 & _).
    apply (H1 (ExitStatus 1)); reflexivity.
  - destruct (H "echo boom; echo bad >&2; exit 2"%string) as (_ & H2 & _).
    apply (H2 (ExitStatus 2)); [reflexivity | discriminate].
  - destruct (H "echo false"%string) as (_ & _ & H3 & _).
    apply H3; reflexivity.
  - destruct (H "true"%string) as (_ & _ & _ & H4).
    apply H4; [reflexivity | discriminate].
Qed.

(** *** The line scanner of the concrete setting *)

Lemma splitLines_noLF (k : string) : forall cur,
  demo.noLF k = true -> demo.splitLines cur k = ([], (cur ++ k)%string).
Proof.
  induction k as [|c k IH]; intros cur H; cbn in *.
  - now rewrite string_app_nil_r.
  - destruct (Ascii.eqb c "010"%char); [discriminate|].
    rewrite (IH _ H), string_app_assoc. reflexivity.
Qed.

Lemma noLF_app (a b : string) :
  demo.noLF (a ++ b)%string = demo.noLF a && demo.noLF b.
Proof.
  induction a as [|c a IH]; cbn; [reflexivity|].
  now rewrite IH, andb_assoc.
Qed.

Lemma splitLines_kept (s : string) : forall cur,
  demo.noLF cur = true -> demo.noLF (snd (demo.splitLines cur s)) = true.
Proof.
  induction s as [|c s IH]; intros cur H; cbn.
  - exact H.
  - destruct (Ascii.eqb c "010"%char) eqn:E.
    + specialize (IH ""%string eq_refl).
      now destruct (demo.splitLines "" s).
    + apply IH. rewrite noLF_app, H. cbn. now rewrite E.
Qed.

Lemma splitLines_app (a : string) : forall cur b,
  demo.noLF cur = true ->
  demo.splitLines cur (a ++ b)%string =
  (fst (demo.splitLines cur a)
   ++ fst (demo.splitLines "" (snd (demo.splitLines cur a) ++ b)%string),
   snd (demo.splitLines "" (snd (demo.splitLines cur a) ++ b)%string)).
Proof.
  induction a as [|c a IH]; intros cur b H.
  - cbn [String.append demo.splitLines fst snd app].
    assert (E : forall c2 c1, demo.noLF c2 = true ->
                demo.splitLines c1 (c2 ++ b)%string
                = demo.splitLines (c1 ++ c2)%string b).
    { clear. induction c2 as [|c c2 IH]; intros c1 H; cbn in *.
      - now rewrite string_app_nil_r.
      - destruct (Ascii.eqb c "010"%char); [discriminate|].
        rewrite (IH _ H), string_app_assoc. reflexivity. }
    rewrite (E cur ""%string H). cbn [String.append].
    now destruct (demo.splitLines cur b).
  - change (String c a ++ b)%string with (String c (a ++ b)%string).
    cbn [demo.splitLines]. destruct (Ascii.eqb c "010"%char) eqn:E.
    + rewrite (IH ""%string b eq_refl).
      destruct (demo.splitLines "" a) as [ls k]. reflexivity.
    + apply IH. rewrite noLF_app, H. cbn. now rewrite E.
Qed.

Lemma demo_lines_Streaming : pipeline.Streaming demo.lines.
Proof.
  repeat split.
  - intros a. cbn [pipeline.complete demo.lines].
    rewrite splitLines_noLF; [reflexivity|].
    now apply splitLines_kept.
  - intros a b. cbn [pipeline.complete demo.lines].
    now apply splitLines_app.
Qed.

(** C4, counterexample.  A body that writes a line to each stream and
    fails: the lines go to the logger, the first is there when the step
    returns, the second is still with the scanner; the error returned is the
    exit status alone, and its text holds nothing of what the command
    wrote. *)
Lemma executeStep_keeps_no_output :
  let out := demo.executeStep demo.ctx (demo.mkNode [] [])
               (demo.step "echo boom; echo bad >&2; exit 2" "") demo.st0 in
  fst out = Some (ExitStatus 2) /\
  pipeline.logged (snd out) = [pipeline.Info "boom"] /\
  pipeline.pending (snd out) = [pipeline.Info "bad"] /\
  strings.Contains (Error (ExitStatus 2)) "boom" = false /\
  strings.Contains (Error (ExitStatus 2)) "bad" = false.
Proof. repeat split. Qed.

(** C4, on a concrete body: three lines written in two writes, the second
    write ending in the middle of a line. *)
Lemma executeStep_forwards_output_witness :
  pipeline.Streaming demo.lines /\
  let out := demo.executeStep demo.ctx (demo.mkNode [] [])
               (demo.step "printf 'a\nb\nc'" "") demo.st0 in
  exists during tail,
    pipeline.logged (snd out) = map pipeline.Info during /\
    pipeline.pending (snd out) = map pipeline.Info tail /\
    during ++ tail = ["a"; "b"; "c"]%string /\
    during = ["a"%string] /\
    fst out = None.
Proof.
  split; [exact demo_lines_Streaming|]. cbn zeta. unfold demo.executeStep.
  destruct (@executeStep_forwards_output demo.World unit unit unit demo.Job []
              demo.shell demo.lines demo.ctx (demo.mkNode [] [])
              (demo.step "printf 'a\nb\nc'" "") demo.st0 demo_lines_Streaming)
    as (during & tail & H1 & H2 & H3 & H4 & H5).
  exists during, tail. repeat split; assumption.
Defined.

(** C7, on concrete steps: the first step is skipped by its condition, the
    second runs, the third fails, the fourth never runs. *)
Lemma doWork_step_order_witness :
  let s0 := demo.step "echo false" "check" in
  let s1 := demo.step "echo hello; echo world" "" in
  let s2 := demo.step "exit 2" "" in
  let s3 := demo.step "true" "" in
  let node := demo.mkNode [s0; s1; s2; s3] [] in
  let out := demo.doWork demo.ctx node demo.st0 in
  let before2 :=
    snd (demo.doSteps demo.ctx node 0 [s0; s1] (pipeline.enterWork demo.st0)) in
  out = demo.doSteps demo.ctx node 1 [s1; s2; s3]
          (snd (demo.shouldExecuteStep demo.ctx node s0
                  (pipeline.enterWork demo.st0))) /\
  fst out = Some (ExitStatus 2) /\
  out = (Some (ExitStatus 2), snd (demo.executeStep demo.ctx node s2 before2)) /\
  map (@pipeline.command _ _ _) (pipeline.liveCalls (pipeline.calls (snd out)))
  = ["echo hello; echo world"%string; "exit 2"%string].
Proof.
  cbn zeta. unfold demo.doWork.
  set (s0 := demo.step "echo false" "check").
  set (s1 := demo.step "echo hello; echo world" "").
  set (s2 := demo.step "exit 2" "").
  set (s3 := demo.step "true" "").
  set (node := demo.mkNode [s0; s1; s2; s3] []).
  pose proof (@doWork_step_order demo.World unit unit unit demo.Job [] demo.shell
                demo.lines demo.ctx node demo.st0)
    as (_ & Hstop & Hskip & _ & Hrun & _).
  repeat apply conj.
  - apply (Hskip [] s0 [s1; s2; s3] (pipeline.enterWork demo.st0));
      [reflexivity | reflexivity | discriminate | reflexivity].
  - erewrite (Hstop [s0; s1; s2] [s3] (ExitStatus 2)); reflexivity.
  - destruct (Hrun [s0; s1] s2 [s3]
                (snd (demo.doSteps demo.ctx node 0 [s0; s1]
                        (pipeline.enterWork demo.st0)))
                (snd (demo.doSteps demo.ctx node 0 [s0; s1]
                        (pipeline.enterWork demo.st0)))
                eq_refl eq_refl (or_introl (conj eq_refl eq_refl))) as [_ H].
    rewrite H. reflexivity.
  - reflexivity.
Defined.

(** ** The one-time guard of [Run] *)

Section RunFacts.

Import pipeline.

Variables World ConfigT RegistryT DevPodManagerT J : Type.
Variable osArgs : list string.
Variable ExecuteShellCommand :
  ShellCall ConfigT RegistryT DevPodManagerT -> World -> ShellResult * World.
Variable ScanLines : pipeline.Scanner.
Context {JobOps : JobInterface World ConfigT RegistryT DevPodManagerT J}.

Local Abbreviation State := (pipeline.State World ConfigT RegistryT DevPodManagerT).
Local Abbreviation PipelineJob := (pipeline.PipelineJob RegistryT DevPodManagerT J).
Local Abbreviation startBody :=
  (@pipeline.startBody _ _ _ _ osArgs ExecuteShellCommand ScanLines J JobOps).
Local Abbreviation Run :=
  (@pipeline.Run _ _ _ _ osArgs ExecuteShellCommand ScanLines J JobOps).
Local Abbreviation RunSeq :=
  (@pipeline.RunSeq _ _ _ _ osArgs ExecuteShellCommand ScanLines J JobOps).

Implicit Types (ctx : Context ConfigT) (gate : nat -> GateView)
         (j : PipelineJob) (st : State)
         (cs : list (Context ConfigT * (nat -> GateView))).

(** A call that finds the guard done returns the error slot and touches
    nothing. *)
Lemma Run_completed ctx gate j st :
  startOnce j = Completed -> Run ctx gate j st = Some (err j, j, st).
Proof. intros H. unfold pipeline.Run. now rewrite H. Qed.

(** Whenever [Run] returns, the guard is done and the value returned is the
    error slot of the node. *)
Lemma Run_returns ctx gate j st r j' st' :
  Run ctx gate j st = Some (r, j', st') ->
  startOnce j' = Completed /\ err j' = r.
Proof.
  unfold pipeline.Run. destruct (startOnce j) eqn:E.
  - destruct (startBody ctx gate j st) as [[j1 st1]|]; [|discriminate].
    intros [= <- <- <-]. split; reflexivity.
  - discriminate.
  - intros [= <- <- <-]. split; [assumption | reflexivity].
Qed.

Lemma RunSeq_completed cs : forall j st,
  startOnce j = Completed ->
  RunSeq cs j st = Some (repeat (err j) (length cs), j, st).
Proof.
  induction cs as [|[ctx gate] cs IH]; intros j st H; [reflexivity|].
  cbn [pipeline.RunSeq length repeat].
  now rewrite (@Run_completed ctx gate j st H), (IH j st H).
Qed.

(** C5.  Once a call of [Run] has returned an error, every later call on
    the node, whatever its context, its gate views and the state it is made
    in, returns that error, and hands back the node and the state as it
    found them: neither the job nor the work function is entered again. *)
Theorem Run_error_is_sticky ctx gate j st E j' st' :
  Run ctx gate j st = Some (Some E, j', st') ->
  forall cs st2,
    RunSeq cs j' st2 = Some (repeat (Some E) (length cs), j', st2).
Proof.
  intros H cs st2. apply Run_returns in H as [Hdone Herr].
  rewrite <- Herr. now apply RunSeq_completed.
Qed.

(** The gating loop ends in cancellation when, the earlier parents having
    been found done, a [select] takes the cancellation case. *)
Lemma waitParents_cancelled gate (parents : list NodeRef) : forall k0 k,
  k < length parents ->
  (forall k', k' < k -> selectCase (gate (k0 + k')) = Some ParentDone) ->
  selectCase (gate (k0 + k)) = Some CtxDone ->
  waitParents gate k0 parents = Cancelled.
Proof.
  induction parents as [|p parents IH]; intros k0 k Hk Hbefore Hat.
  - cbn in Hk. lia.
  - cbn [waitParents]. destruct k as [|k].
    + rewrite Nat.add_0_r in Hat. now rewrite Hat.
    + pose proof (Hbefore 0 ltac:(lia)) as H0.
      rewrite Nat.add_0_r in H0. rewrite H0.
      apply (IH (S k0) k).
      * cbn in Hk. lia.
      * intros k' Hk'. rewrite Nat.add_succ_l, <- Nat.add_succ_r.
        apply Hbefore. lia.
      * now rewrite Nat.add_succ_l, <- Nat.add_succ_r.
Qed.

(** C6.  A node that has not run, whose gating finds the parents before
    parent [k] done and, at parent [k], the run cancelled and the parent not
    done: [Run] returns nil, and the job and the state are as they were, so
    the job was not started and the work function did not run. *)
Theorem Run_cancelled_while_gating ctx gate j st k :
  startOnce j = NotStarted ->
  err j = None ->
  k < length (Parents j) ->
  (forall k', k' < k -> selectCase (gate k') = Some ParentDone) ->
  ctxReady (gate k) = true ->
  parentReady (gate k) = false ->
  Run ctx gate j st = Some (None, set_startOnce Completed j, st).
Proof.
  intros Hns Herr Hk Hbefore Hc Hp.
  unfold pipeline.Run, pipeline.startBody. rewrite Hns.
  rewrite (@waitParents_cancelled gate (Parents j) 0 k Hk).
  - cbn. now rewrite Herr.
  - exact Hbefore.
  - cbn. unfold selectCase. now rewrite Hc, Hp.
Qed.

(** C9.  After a first call that ended in cancellation during gating, the
    guard is done for good: the job of the node is as it was before that
    call, and every later call, whatever its context and gate views, returns
    nil and hands back the node and the state as it found them. *)
Theorem cancelled_guard_is_consumed ctx gate j st :
  startOnce j = NotStarted ->
  err j = None ->
  waitParents gate 0 (Parents j) = Cancelled ->
  exists j',
    Run ctx gate j st = Some (None, j', st) /\
    startOnce j' = Completed /\
    Job j' = Job j /\
    forall cs st2, RunSeq cs j' st2 = Some (repeat None (length cs), j', st2).
Proof.
  intros Hns Herr Hw. exists (set_startOnce Completed j).
  assert (HR : Run ctx gate j st = Some (None, set_startOnce Completed j, st)).
  { unfold pipeline.Run, pipeline.startBody. rewrite Hns, Hw. cbn.
    now rewrite Herr. }
  repeat split; try assumption.
  intros cs st2.
  rewrite <- Herr.
  exact (@RunSeq_completed cs (set_startOnce Completed j) st2 eq_refl).
Qed.

End RunFacts.

(** *** The guard on a concrete node *)

(** C5, on a node whose only step fails: the first call returns the error
    of the job, and so do two later calls, one of them made with the run
    cancelled. *)
Lemma Run_error_is_sticky_witness :
  let node := demo.mkNode [demo.step "exit 2" ""] ["root"%string] in
  exists j' st',
    demo.Run demo.ctx demo.parentsDone node demo.st0
    = Some (Some (ExitStatus 2), j', st') /\
    demo.RunSeq [(demo.ctx, demo.cancelled); (demo.ctx, demo.parentsDone)] j' st'
    = Some ([Some (ExitStatus 2); Some (ExitStatus 2)], j', st') /\
    pipeline.workRuns st' = 1.
Proof.
  cbn zeta. unfold demo.Run, demo.RunSeq.
  eexists. eexists. split; [reflexivity|]. split; [|reflexivity].
  match goal with
  | |- pipeline.RunSeq _ _ _ _ ?j' ?st' = _ =>
      apply (@Run_error_is_sticky demo.World unit unit unit demo.Job []
               demo.shell demo.lines demo.JobOps demo.ctx demo.parentsDone
               (demo.mkNode [demo.step "exit 2" ""] ["root"%string]) demo.st0
               (ExitStatus 2) j' st')
  end.
  reflexivity.
Defined.

(** C6, on a node with two parents: the first is found done, then the run
    is cancelled while the second is still running. *)
Lemma Run_cancelled_while_gating_witness :
  let node := demo.mkNode [demo.step "true" ""] ["a"%string; "b"%string] in
  demo.Run demo.ctx (demo.cancelledAt 1) node demo.st0
  = Some (None, pipeline.set_startOnce pipeline.Completed node, demo.st0).
Proof.
  cbn zeta. unfold demo.Run.
  apply (@Run_cancelled_while_gating demo.World unit unit unit demo.Job []
           demo.shell demo.lines demo.JobOps demo.ctx (demo.cancelledAt 1) _
           demo.st0 1).
  - reflexivity.
  - reflexivity.
  - cbn. lia.
  - intros k' Hk'. assert (k' = 0) as -> by lia. reflexivity.
  - reflexivity.
  - reflexivity.
Defined.

(** C9, on a node with one parent: the first call is cancelled; two later
    calls, made when the parent is done and nothing is cancelled, return nil
    and leave the job unstarted and the state untouched. *)
Lemma cancelled_guard_is_consumed_witness :
  let node := demo.mkNode [demo.step "true" ""] ["root"%string] in
  exists j',
    demo.Run demo.ctx demo.cancelled node demo.st0 = Some (None, j', demo.st0) /\
    pipeline.Job j' = demo.job0 /\
    demo.RunSeq [(demo.ctx, demo.parentsDone); (demo.ctx, demo.parentsDone)]
                j' demo.st0
    = Some ([None; None], j', demo.st0).
Proof.
  cbn zeta. unfold demo.Run, demo.RunSeq.
  destruct (@cancelled_guard_is_consumed demo.World unit unit unit demo.Job []
              demo.shell demo.lines demo.JobOps demo.ctx demo.cancelled
              (demo.mkNode [demo.step "true" ""] ["root"%string]) demo.st0
              eq_refl eq_refl eq_refl) as (j' & HR & _ & HJ & Hseq).
  exists j'. split; [exact HR|]. split; [exact HJ|].
  apply (Hseq [(demo.ctx, demo.parentsDone); (demo.ctx, demo.parentsDone)]).
Defined.

(** ** Several callers of [Run] on one node *)

Section CallersFacts.

Import pipeline.

Variables World ConfigT RegistryT DevPodManagerT J : Type.
Variable osArgs : list string.
Variable ExecuteShellCommand :
  ShellCall ConfigT RegistryT DevPodManagerT -> World -> ShellResult * World.
Variable ScanLines : pipeline.Scanner.
Context {JobOps : JobInterface World ConfigT RegistryT DevPodManagerT J}.

Local Abbreviation State := (pipeline.State World ConfigT RegistryT DevPodManagerT).
Local Abbreviation PipelineJob := (pipeline.PipelineJob RegistryT DevPodManagerT J).
Local Abbreviation Caller := (pipeline.Caller ConfigT).
Local Abbreviation Returned := (@pipeline.Returned ConfigT).
Local Abbreviation System := (pipeline.System World ConfigT RegistryT DevPodManagerT J).
Local Abbreviation startBody :=
  (@pipeline.startBody _ _ _ _ osArgs ExecuteShellCommand ScanLines J JobOps).
Local Abbreviation stepCaller :=
  (@pipeline.stepCaller _ _ _ _ osArgs ExecuteShellCommand ScanLines J JobOps).
Local Abbreviation schedule :=
  (@pipeline.schedule _ _ _ _ osArgs ExecuteShellCommand ScanLines J JobOps).
Local Abbreviation Phase :=
  (@pipeline.Phase _ _ _ _ osArgs ExecuteShellCommand ScanLines J JobOps).

Implicit Types (j : PipelineJob) (st : State) (s : System) (c : Caller).

Lemma nth_error_setCaller_eq c (cs : list Caller) : forall k c0,
  nth_error cs k = Some c0 -> nth_error (setCaller k c cs) k = Some c.
Proof.
  induction cs as [|c1 cs IH]; intros [|k] c0 H; try discriminate.
  - reflexivity.
  - cbn in *. now apply IH with c0.
Qed.

Lemma nth_error_setCaller_neq c (cs : list Caller) : forall k k',
  k' <> k -> nth_error (setCaller k c cs) k' = nth_error cs k'.
Proof.
  induction cs as [|c1 cs IH]; intros [|k] [|k'] H; try reflexivity.
  - contradiction.
  - cbn. apply IH. congruence.
Qed.

(** Replacing one caller keeps a property that the new caller has. *)
Lemma eachCaller_setCaller (P : Caller -> Prop) k c (cs : list Caller) :
  P c ->
  (forall k' c', k' <> k -> nth_error cs k' = Some c' -> P c') ->
  eachCaller P (setCaller k c cs).
Proof.
  intros Hc Hothers k' c' H.
  destruct (Nat.eq_dec k' k) as [->|Hne].
  - destruct (nth_error cs k) as [c0|] eqn:E.
    + rewrite (nth_error_setCaller_eq c cs k E) in H. congruence.
    + assert (Hnone : nth_error (setCaller k c cs) k = None).
      { clear -E. revert k E. induction cs as [|c1 cs IH]; intros [|k] E;
          try reflexivity; try discriminate. cbn in *. now apply IH. }
      congruence.
  - rewrite nth_error_setCaller_neq in H by assumption. now apply Hothers with k'.
Qed.

(** The callers start in the first phase. *)
Lemma initial_Phase (cs : list (Context ConfigT * (nat -> GateView))) j st :
  Phase j st (initial cs j st).
Proof.
  apply phase_idle; try reflexivity.
  intros k c H. cbn in H.
  rewrite nth_error_map in H.
  destruct (nth_error cs k); [|discriminate].
  injection H as <-. exact I.
Qed.

(** A move of a caller leads from a phase to a phase. *)
Lemma stepCaller_Phase j0 st0 k s s' :
  startOnce j0 = NotStarted ->
  Phase j0 st0 s -> stepCaller k s = Some s' -> Phase j0 st0 s'.
Proof.
  intros Hns HP Hstep. unfold pipeline.stepCaller in Hstep.
  destruct (nth_error (callers s) k) as [[ctx gate|ctx gate|r]|] eqn:Ek;
    try discriminate.
  - (* the caller is before the guard *)
    destruct HP as [Hn Hs Hall | k0 ctx0 gate0 Hn Hs Hin Hothers
                    | ctx0 gate0 j' st' Hbody Hn Hs Hall].
    + rewrite Hn, Hns in Hstep. injection Hstep as <-.
      apply phase_busy with k ctx gate; cbn [node store callers].
      * reflexivity.
      * exact Hs.
      * now apply nth_error_setCaller_eq with (Calling ctx gate).
      * intros k' c Hne H.
        rewrite nth_error_setCaller_neq in H by assumption.
        now apply (Hall k').
    + rewrite Hn in Hstep. discriminate.
    + rewrite Hn in Hstep. cbn in Hstep. injection Hstep as <-.
      apply phase_done with ctx0 gate0 j' st'; cbn [node store callers];
        [assumption | reflexivity | assumption | ].
      apply eachCaller_setCaller.
      * reflexivity.
      * intros k' c' _ H. now apply (Hall k').
  - (* the caller is inside the guarded function *)
    destruct HP as [Hn Hs Hall | k0 ctx0 gate0 Hn Hs Hin Hothers
                    | ctx0 gate0 j' st' Hbody Hn Hs Hall].
    + destruct (Hall k _ Ek).
    + destruct (Nat.eq_dec k k0) as [->|Hne].
      * destruct (startBody ctx gate (node s) (store s)) as [[j' st']|] eqn:Eb;
          [|discriminate].
        injection Hstep as <-. rewrite Hn, Hs in Eb.
        apply phase_done with ctx gate j' st'; cbn [node store callers];
          try assumption; try reflexivity.
        apply eachCaller_setCaller.
        -- reflexivity.
        -- intros k' c' Hne H. specialize (Hothers k' c' Hne H).
           destruct c'; cbn in *; try contradiction; exact I.
      * destruct (Hothers k _ Hne Ek).
    + destruct (Hall k _ Ek).
Qed.

Lemma schedule_Phase j0 st0 ks : forall s,
  startOnce j0 = NotStarted ->
  Phase j0 st0 s -> Phase j0 st0 (schedule ks s).
Proof.
  induction ks as [|k ks IH]; intros s Hns HP; [exact HP|].
  cbn [pipeline.schedule].
  destruct (stepCaller k s) as [s'|] eqn:E.
  - apply IH; [assumption|]. now apply stepCaller_Phase with k s.
  - now apply IH.
Qed.

(** In every phase the callers that have returned have returned the error
    slot of the node. *)
Lemma Phase_returned j0 st0 s k r :
  Phase j0 st0 s ->
  nth_error (callers s) k = Some (Returned r) -> r = err (node s).
Proof.
  intros [Hn Hs Hall | k0 ctx0 gate0 Hn Hs Hin Hothers
          | ctx0 gate0 j' st' Hbody Hn Hs Hall] H.
  - destruct (Hall k _ H).
  - destruct (Nat.eq_dec k k0) as [->|Hne]; [congruence|].
    destruct (Hothers k _ Hne H).
  - rewrite Hn. exact (Hall k _ H).
Qed.

(** A caller has returned only once the guard is done. *)
Lemma Phase_returned_done j0 st0 s k r :
  Phase j0 st0 s ->
  nth_error (callers s) k = Some (Returned r) -> startOnce (node s) = Completed.
Proof.
  intros [Hn Hs Hall | k0 ctx0 gate0 Hn Hs Hin Hothers
          | ctx0 gate0 j' st' Hbody Hn Hs Hall] H.
  - destruct (Hall k _ H).
  - destruct (Nat.eq_dec k k0) as [->|Hne]; [congruence|].
    destruct (Hothers k _ Hne H).
  - now rewrite Hn.
Qed.

(** Until the guard is done nothing has touched the state. *)
Lemma Phase_not_done j0 st0 s :
  Phase j0 st0 s -> startOnce (node s) <> Completed -> store s = st0.
Proof.
  intros [Hn Hs Hall | k0 ctx0 gate0 Hn Hs Hin Hothers
          | ctx0 gate0 j' st' Hbody Hn Hs Hall] H; try assumption.
  rewrite Hn in H. now destruct H.
Qed.

(** Who took the guard: a move keeps the callers among those the system
    started with, and when it ends the guarded function, that function was
    run for one of them. *)
Lemma stepCaller_DoneBy (cs : list (Context ConfigT * (nat -> GateView)))
      j0 st0 k s s' :
  Phase j0 st0 s ->
  eachCaller (fromCallers cs) (callers s) ->
  (startOnce (node s) = Completed ->
   DoneBy osArgs ExecuteShellCommand ScanLines cs j0 st0 s) ->
  stepCaller k s = Some s' ->
  eachCaller (fromCallers cs) (callers s') /\
  (startOnce (node s') = Completed ->
   DoneBy osArgs ExecuteShellCommand ScanLines cs j0 st0 s').
Proof.
  intros HP Hfrom Hdone Hstep. unfold pipeline.stepCaller in Hstep.
  destruct (nth_error (callers s) k) as [[ctx gate|ctx gate|r]|] eqn:Ek;
    try discriminate.
  - destruct (startOnce (node s)) eqn:Eo; try discriminate;
      injection Hstep as <-; cbn [node store callers]; split.
    + apply eachCaller_setCaller.
      * exact (Hfrom k _ Ek).
      * intros k' c' _ H. exact (Hfrom k' _ H).
    + discriminate.
    + apply eachCaller_setCaller; [exact I|].
      intros k' c' _ H. exact (Hfrom k' _ H).
    + intros _. destruct (Hdone eq_refl) as (c0 & g0 & j' & st' & H).
      exists c0, g0, j', st'. exact H.
  - destruct (startBody ctx gate (node s) (store s)) as [[j' st']|] eqn:Eb;
      [|discriminate].
    injection Hstep as <-. cbn [node store callers]. split.
    + apply eachCaller_setCaller; [exact I|].
      intros k' c' _ H. exact (Hfrom k' _ H).
    + intros _. exists ctx, gate, j', st'.
      split; [exact (Hfrom k _ Ek)|].
      destruct HP as [Hn Hs Hall | k0 ctx0 gate0 Hn Hs Hin Hothers
                      | ctx0 gate0 j1 st1 Hbody Hn Hs Hall].
      * destruct (Hall k _ Ek).
      * rewrite Hn, Hs in Eb. repeat split; assumption.
      * destruct (Hall k _ Ek).
Qed.

Lemma schedule_DoneBy (cs : list (Context ConfigT * (nat -> GateView)))
      j0 st0 ks : forall s,
  startOnce j0 = NotStarted ->
  Phase j0 st0 s ->
  eachCaller (fromCallers cs) (callers s) ->
  (startOnce (node s) = Completed ->
   DoneBy osArgs ExecuteShellCommand ScanLines cs j0 st0 s) ->
  startOnce (node (schedule ks s)) = Completed ->
  DoneBy osArgs ExecuteShellCommand ScanLines cs j0 st0 (schedule ks s).
Proof.
  induction ks as [|k ks IH]; intros s Hns HP Hfrom Hdone; [exact Hdone|].
  cbn [pipeline.schedule].
  destruct (stepCaller k s) as [s'|] eqn:E.
  - destruct (@stepCaller_DoneBy cs j0 st0 k s s' HP Hfrom Hdone E)
      as [Hfrom' Hdone'].
    apply IH; try assumption. now apply stepCaller_Phase with k s.
  - now apply IH.
Qed.

(** The callers a system starts with. *)
Lemma initial_fromCallers (cs : list (Context ConfigT * (nat -> GateView))) j st :
  eachCaller (fromCallers cs) (callers (initial cs j st)).
Proof.
  intros k c H. cbn in H. rewrite nth_error_map in H.
  destruct (nth_error cs k) as [[ctx gate]|] eqn:E; [|discriminate].
  injection H as <-. cbn. now apply nth_error_In with k.
Qed.

(** A scheduler that only picks callers that cannot move changes nothing. *)
Lemma schedule_blocked ks : forall s,
  (forall k, In k ks -> stepCaller k s = None) -> schedule ks s = s.
Proof.
  induction ks as [|k ks IH]; intros s H; [reflexivity|].
  cbn [pipeline.schedule]. rewrite (H k (or_introl eq_refl)).
  apply IH. intros k' Hk'. apply H. now right.
Qed.

Lemma setCaller_app (done : list Caller) c c' (todo : list Caller) :
  setCaller (length done) c' (done ++ c :: todo) = done ++ c' :: todo.
Proof. induction done as [|d done IH]; cbn; [reflexivity | now rewrite IH]. Qed.

(** Once the guard is done, a round over the callers that are still before
    it makes each of them return the error slot. *)
Lemma schedule_completed j st (todo : list (Context ConfigT * (nat -> GateView))) :
  startOnce j = Completed ->
  forall done : list Caller,
    schedule (seq (length done) (length todo))
      {| node := j; store := st;
         callers := done ++ map (fun x => Calling (fst x) (snd x)) todo |}
    = {| node := j; store := st;
         callers := done ++ map (fun _ => Returned (err j)) todo |}.
Proof.
  intros Hc. induction todo as [|[ctx gate] todo IH]; intros done; [reflexivity|].
  cbn [length seq map pipeline.schedule fst snd].
  unfold pipeline.stepCaller. cbn [callers node store].
  rewrite nth_error_app2, Nat.sub_diag by lia. cbn [nth_error].
  rewrite Hc, setCaller_app.
  specialize (IH (done ++ [Returned (err j)])).
  rewrite length_app, Nat.add_1_r, <- !app_assoc in IH. exact IH.
Qed.

(** When the guarded function of the first caller returns, two rounds of
    the scheduler over all callers bring every one of them to return the
    error slot that function has left. *)
Lemma all_callers_return ctx0 gate0
      (cs : list (Context ConfigT * (nat -> GateView))) j st j' st' :
  startOnce j = NotStarted ->
  startBody ctx0 gate0 (set_startOnce InProgress j) st = Some (j', st') ->
  let n := S (length cs) in
  schedule (seq 0 n ++ seq 0 n) (initial ((ctx0, gate0) :: cs) j st)
  = {| node := set_startOnce Completed j'; store := st';
       callers := repeat (Returned (err j')) n |}.
Proof.
  intros Hns Hbody n.
  assert (Happ : forall ks ks' s, schedule (ks ++ ks') s = schedule ks' (schedule ks s)).
  { induction ks as [|k ks IH]; intros ks' s; [reflexivity|].
    cbn [app pipeline.schedule]. destruct (stepCaller k s); apply IH. }
  rewrite Happ. subst n.
  (* first round: the first caller goes inside, the others wait *)
  assert (H1 : schedule (seq 0 (S (length cs))) (initial ((ctx0, gate0) :: cs) j st)
               = {| node := set_startOnce InProgress j; store := st;
                    callers := Inside ctx0 gate0
                               :: map (fun x => Calling (fst x) (snd x)) cs |}).
  { cbn [seq pipeline.schedule]. unfold pipeline.stepCaller at 1.
    cbn [initial callers node store map nth_error fst snd setCaller].
    rewrite Hns. apply schedule_blocked.
    intros k Hk. apply in_seq in Hk. unfold pipeline.stepCaller.
    cbn [callers node store startOnce set_startOnce].
    destruct k as [|k]; [lia|]. cbn [nth_error].
    rewrite nth_error_map. now destruct (nth_error cs k). }
  rewrite H1. clear H1.
  (* second round: it comes out, the others find the guard done *)
  cbn [seq pipeline.schedule]. unfold pipeline.stepCaller at 1.
  cbn [callers node store nth_error setCaller]. rewrite Hbody.
  pose proof (@schedule_completed (set_startOnce Completed j') st' cs eq_refl
                [Returned (err j')]) as H2.
  cbn [length app] in H2. rewrite H2. clear H2.
  cbn [app repeat err set_startOnce]. f_equal. f_equal.
  clear. induction cs as [|c cs IH]; [reflexivity|]. cbn. now rewrite IH.
Qed.

End CallersFacts.

(** ** Callers of a node that drives the modelled job *)

Section SimpleJobFacts.

Import pipeline.

Variables World ConfigT RegistryT DevPodManagerT : Type.
Variable osArgs : list string.
Variable ExecuteShellCommand :
  ShellCall ConfigT RegistryT DevPodManagerT -> World -> ShellResult * World.
Variable ScanLines : pipeline.Scanner.

Local Abbreviation State := (pipeline.State World ConfigT RegistryT DevPodManagerT).
Local Abbreviation SimpleJob :=
  (pipeline.SimpleJob World ConfigT RegistryT DevPodManagerT).
Local Abbreviation PipelineJob :=
  (pipeline.PipelineJob RegistryT DevPodManagerT SimpleJob).
Local Abbreviation Returned := (@pipeline.Returned ConfigT).
Local Abbreviation startBody :=
  (@pipeline.startBody _ _ _ _ osArgs ExecuteShellCommand ScanLines SimpleJob
     (@SimpleJob_Job World ConfigT RegistryT DevPodManagerT)).
Local Abbreviation schedule :=
  (@pipeline.schedule _ _ _ _ osArgs ExecuteShellCommand ScanLines SimpleJob
     (@SimpleJob_Job World ConfigT RegistryT DevPodManagerT)).

Implicit Types (ctx : Context ConfigT) (gate : nat -> GateView)
         (j : PipelineJob) (st : State).

(** The guarded function enters the work function once when the gating
    lets it proceed and the job starts, and not at all otherwise. *)
Lemma startBody_workRuns ctx gate j st j' st' :
  startBody ctx gate j st = Some (j', st') ->
  workRuns st' =
  match waitParents gate 0 (Parents j), setupError (Job j) with
  | Proceed, None => S (workRuns st)
  | _, _ => workRuns st
  end.
Proof.
  unfold pipeline.startBody.
  destruct (waitParents gate 0 (Parents j)); try discriminate.
  - cbn [Start SimpleJob_Job]. unfold SimpleJob_Start.
    destruct (setupError (Job j)) as [e|].
    + intros [= <- <-]. reflexivity.
    + cbn [Await SimpleJob_Job]. unfold SimpleJob_Await. cbn [finished work].
      pose proof (@doSteps_workRuns World ConfigT RegistryT DevPodManagerT
                    SimpleJob osArgs ExecuteShellCommand ScanLines ctx j
                    (latest.Steps (JobConfig j)) 0 (enterWork st)) as Hw.
      unfold pipeline.doWork.
      destruct (doSteps osArgs ExecuteShellCommand ScanLines ctx j 0
                  (latest.Steps (JobConfig j)) (enterWork st)) as [r st1].
      cbn [snd JobError SimpleJob_Job terminal] in *.
      destruct r as [e|]; [|destruct (latest.Rerun (JobConfig j))];
        intros [= <- <-]; exact Hw.
  - destruct (setupError (Job j)); intros [= <- <-]; reflexivity.
Qed.

(** C8, as the code has it.  Take any number of callers of [Run] on a node
    that has not run, and let the scheduler interleave them in any way.
    At no moment has the work function been entered more than once.  Once
    the guard is done, and so once any call has returned, it has been
    entered exactly once, but for two cases in which it has not been entered
    at all: the caller that took the guard, one of those callers, found its
    context cancelled while gating on the parents, or the job failed to
    start.  So it has been entered exactly once if no caller can find its
    context cancelled in the gating and the job starts.  Every caller that
    has returned has returned the same value, the error slot of the node.
    And when the guarded function of the first caller returns, two rounds of
    the scheduler over the callers make all of them return the error slot it
    has left. *)
Theorem Run_work_exactly_once
        (cs : list (Context ConfigT * (nat -> GateView))) j st :
  startOnce j = NotStarted ->
  (forall ks : list nat,
      let s := schedule ks (initial cs j st) in
      workRuns (store s) <= S (workRuns st) /\
      (startOnce (node s) = Completed ->
       exists ctx gate,
         In (ctx, gate) cs /\
         workRuns (store s) =
         match waitParents gate 0 (Parents j), setupError (Job j) with
         | Proceed, None => S (workRuns st)
         | _, _ => workRuns st
         end) /\
      (startOnce (node s) = Completed ->
       (forall ctx gate, In (ctx, gate) cs ->
                         waitParents gate 0 (Parents j) = Proceed) ->
       setupError (Job j) = None ->
       workRuns (store s) = S (workRuns st)) /\
      (forall k r, nth_error (callers s) k = Some (Returned r) ->
                   startOnce (node s) = Completed /\ r = err (node s))) /\
  (forall ctx0 gate0 cs' j' st',
      cs = (ctx0, gate0) :: cs' ->
      startBody ctx0 gate0 (set_startOnce InProgress j) st = Some (j', st') ->
      let round := seq 0 (length cs) in
      callers (schedule (round ++ round) (initial cs j st))
      = repeat (Returned (err j')) (length cs)).
Proof.
  intros Hns. split.
  - intros ks s.
    assert (HP : Phase osArgs ExecuteShellCommand ScanLines j st s).
    { apply schedule_Phase; [assumption | apply initial_Phase]. }
    assert (HD : startOnce (node s) = Completed ->
                 exists ctx gate,
                   In (ctx, gate) cs /\
                   workRuns (store s) =
                   match waitParents gate 0 (Parents j), setupError (Job j) with
                   | Proceed, None => S (workRuns st)
                   | _, _ => workRuns st
                   end).
    { intros Hc.
      destruct (@schedule_DoneBy _ _ _ _ _ osArgs ExecuteShellCommand ScanLines
                  _ cs j st ks (initial cs j st) Hns
                  (@initial_Phase _ _ _ _ _ osArgs ExecuteShellCommand ScanLines _ cs j st)
                  (initial_fromCallers cs j st))
        as (ctx & gate & j' & st' & Hin & Hbody & Hn & Hs).
      - cbn [initial node]. rewrite Hns. discriminate.
      - exact Hc.
      - exists ctx, gate. split; [exact Hin|].
        fold s in Hs. rewrite Hs. exact (startBody_workRuns _ _ _ _ Hbody). }
    repeat apply conj.
    + destruct (startOnce (node s)) eqn:Eo.
      * rewrite (Phase_not_done HP); [lia | congruence].
      * rewrite (Phase_not_done HP); [lia | congruence].
      * destruct (HD eq_refl) as (ctx & gate & _ & ->).
        destruct (waitParents gate 0 (Parents j)); try lia.
        destruct (setupError (Job j)); lia.
    + exact HD.
    + intros Hc Hgate Hstart.
      destruct (HD Hc) as (ctx & gate & Hin & Hw).
      now rewrite (Hgate ctx gate Hin), Hstart in Hw.
    + intros k r H. split.
      * exact (Phase_returned_done k HP H).
      * exact (Phase_returned k HP H).
  - intros ctx0 gate0 cs' j' st' -> Hbody round. subst round.
    cbn [length].
    now rewrite (@all_callers_return _ _ _ _ _ osArgs ExecuteShellCommand ScanLines
                   _ ctx0 gate0 cs' j st j' st' Hns Hbody).
Qed.

End SimpleJobFacts.

(** C8, counterexamples.  Two callers of [Run] whose contexts are cancelled
    while the parent of the node is still running: both calls have returned,
    with nil, and the work function has not been entered at all.  Two
    callers of [Run] on a node whose job fails to start: both calls have
    returned the error of the start, and the work function has not been
    entered at all. *)
Lemma cancelled_callers_never_enter_work :
  let node := demo.mkNode [demo.step "true" ""] ["root"%string] in
  let s := demo.schedule [0; 1; 0; 1]
             (pipeline.initial [(demo.ctx, demo.cancelled);
                                (demo.ctx, demo.cancelled)] node demo.st0) in
  let broken := demo_jobs.brokenNode [demo.step "true" ""] ["root"%string] in
  let s' := demo.schedule [0; 1; 0; 1]
              (pipeline.initial [(demo.ctx, demo.parentsDone);
                                 (demo.ctx, demo.parentsDone)] broken demo.st0) in
  (pipeline.callers s = [pipeline.Returned unit None; pipeline.Returned unit None] /\
   pipeline.workRuns (pipeline.store s) = 0) /\
  (pipeline.callers s'
   = [pipeline.Returned unit (Some (ShellError "no cluster"));
      pipeline.Returned unit (Some (ShellError "no cluster"))] /\
   pipeline.workRuns (pipeline.store s') = 0).
Proof. repeat split. Qed.

(** C8, on three callers of a node whose second step fails: the third
    caller takes the guard, the others wait, and all three return the error
    of the job; the work function was entered exactly once. *)
Lemma Run_work_exactly_once_witness :
  let node := demo.mkNode [demo.step "echo hello; echo world" "";
                           demo.step "exit 2" ""] ["root"%string] in
  let cs := [(demo.ctx, demo.parentsDone); (demo.ctx, demo.parentsDone);
             (demo.ctx, demo.parentsDone)] in
  let s := demo.schedule [2; 0; 1; 2; 2; 0; 1] (pipeline.initial cs node demo.st0) in
  pipeline.startOnce node = pipeline.NotStarted /\
  pipeline.workRuns (pipeline.store s) = 1 /\
  (forall k r, nth_error (pipeline.callers s) k = Some (pipeline.Returned unit r) ->
               r = pipeline.err (pipeline.node s)) /\
  pipeline.callers s = repeat (pipeline.Returned unit (Some (ExitStatus 2))) 3.
Proof.
  cbn zeta. split; [reflexivity|].
  pose proof (proj1 (@Run_work_exactly_once demo.World unit unit unit []
                       demo.shell demo.lines
                       [(demo.ctx, demo.parentsDone); (demo.ctx, demo.parentsDone);
                        (demo.ctx, demo.parentsDone)]
                       (demo.mkNode [demo.step "echo hello; echo world" "";
                                     demo.step "exit 2" ""] ["root"%string])
                       demo.st0 eq_refl) [2; 0; 1; 2; 2; 0; 1])
    as (_ & _ & Honce & Hret).
  repeat apply conj.
  - apply Honce; [reflexivity | | reflexivity].
    intros ctx gate [H|[H|[H|[]]]]; injection H as <- <-; reflexivity.
  - intros k r H. exact (proj2 (Hret k r H)).
  - reflexivity.
Defined.

(** ** Printing the dependency tree *)

Section PrintFacts.

Import types cmd.

(** Induction over a dependency tree: the children of a node satisfy the
    property before the node does. *)
Lemma Dependency_tree_ind (P : Dependency -> Prop) :
  (forall name id children, Forall P children -> P (Dep name id children)) ->
  forall dep, P dep.
Proof.
  intros H.
  fix IH 1. intros [name id children]. apply H.
  induction children as [|child children IHc]; constructor.
  - apply IH.
  - exact IHc.
Qed.

(** The body of the printer: the slice, the line, then the children. *)
Lemma printDependencyRecursive_eq prefix name id children log :
  printDependencyRecursive prefix (Dep name id children) log =
  match slice_to id 5 with
  | None => Panics log
  | Some id5 =>
      printChildren (prefix ++ "--")%string children
        (log ++ [(prefix ++ "> " ++ name ++ " (ID: " ++ id5 ++ ")" ++ newline)%string])
  end.
Proof.
  cbn [printDependencyRecursive]. destruct (slice_to id 5) as [id5|]; [|reflexivity].
  generalize (log ++ [(prefix ++ "> " ++ name ++ " (ID: " ++ id5 ++ ")" ++ newline)%string]).
  induction children as [|child children IH]; intros l; [reflexivity|].
  cbn [printChildren].
  destruct (printDependencyRecursive (prefix ++ "--")%string child l);
    [apply IH | reflexivity].
Qed.

Lemma slice_to_short (s : string) (n : nat) :
  slice_to s n = None <-> String.length s < n.
Proof.
  unfold slice_to. destruct (Nat.leb_spec n (String.length s)).
  - split; [discriminate | lia].
  - split; [intros _; assumption | reflexivity].
Qed.

Lemma printChildren_panics (children : list Dependency) :
  Forall (fun dep => forall prefix log,
              panics (printDependencyRecursive prefix dep log) = hasShortID dep)
         children ->
  forall prefix log,
    panics (printChildren prefix children log) = existsb hasShortID children.
Proof.
  induction 1 as [|child children Hc _ IH]; intros prefix log; [reflexivity|].
  cbn [printChildren existsb]. specialize (Hc prefix log).
  destruct (printDependencyRecursive prefix child log) as [log'|log'];
    cbn [panics] in Hc; rewrite <- Hc.
  - apply IH.
  - reflexivity.
Qed.

(** C10.  The printer takes the slice of the first five bytes of the ID of
    every dependency it reaches, with no check of the length: the call ends
    in the out-of-range panic exactly when some dependency of the tree has
    an ID shorter than five bytes, and returns exactly when every ID has at
    least five. *)
Theorem printDependencyRecursive_panics_iff_short_ID prefix dep log :
  panics (printDependencyRecursive prefix dep log) = hasShortID dep.
Proof.
  revert prefix log. induction dep as [name id children IH] using Dependency_tree_ind.
  intros prefix log. rewrite printDependencyRecursive_eq. cbn [hasShortID].
  destruct (slice_to id 5) as [id5|] eqn:E.
  - assert (Hlen : (String.length id <? 5)%nat = false).
    { apply Nat.ltb_ge. unfold slice_to in E.
      destruct (Nat.leb_spec 5 (String.length id)); [assumption | discriminate]. }
    rewrite Hlen. cbn [orb]. now apply printChildren_panics.
  - apply slice_to_short in E. apply Nat.ltb_lt in E. now rewrite E.
Qed.

(** A tree that is printed, with the first five bytes of each ID, and a tree
    whose second child has an ID of four bytes: the root and the first child
    are written, then the call panics. *)
Example printDependencyRecursive_examples :
  printDependencyRecursive "--"
    (Dep "api" "0123456789" [Dep "db" "abcdef" []]) []
  = Returns [("--> api (ID: 01234)" ++ newline)%string;
             ("----> db (ID: abcde)" ++ newline)%string] /\
  printDependencyRecursive "--"
    (Dep "api" "0123456789" [Dep "db" "abcdef" []; Dep "cache" "abcd" []]) []
  = Panics [("--> api (ID: 01234)" ++ newline)%string;
            ("----> db (ID: abcde)" ++ newline)%string].
Proof. split; reflexivity. Qed.

End PrintFacts.

(* ================================================================== *)
(** * Further properties of the step runner *)

Section StepRunnerMore.

Import pipeline trace.

Variables World ConfigT RegistryT DevPodManagerT J : Type.
Variable osArgs : list string.
Variable ExecuteShellCommand :
  ShellCall ConfigT RegistryT DevPodManagerT -> World -> ShellResult * World.
Variable ScanLines : pipeline.Scanner.

Local Abbreviation State := (pipeline.State World ConfigT RegistryT DevPodManagerT).
Local Abbreviation PipelineJob := (pipeline.PipelineJob RegistryT DevPodManagerT J).
Local Abbreviation exec := (pipeline.exec ExecuteShellCommand).
Local Abbreviation conditionCall := (@pipeline.conditionCall ConfigT _ _ osArgs J).
Local Abbreviation bodyCall := (@pipeline.bodyCall ConfigT _ _ osArgs J).
Local Abbreviation shouldExecuteStep :=
  (@pipeline.shouldExecuteStep _ _ _ _ osArgs ExecuteShellCommand J).
Local Abbreviation executeStep :=
  (@pipeline.executeStep _ _ _ _ osArgs ExecuteShellCommand ScanLines J).
Local Abbreviation doSteps :=
  (@pipeline.doSteps _ _ _ _ osArgs ExecuteShellCommand ScanLines J).
Local Abbreviation doWork :=
  (@pipeline.doWork _ _ _ _ osArgs ExecuteShellCommand ScanLines J).

Implicit Types (ctx : Context ConfigT) (j : PipelineJob) (st : State)
         (step : latest.PipelineStep).

Lemma shouldExecuteStep_calls ctx j step st :
  calls (snd (shouldExecuteStep ctx j step st))
  = calls st ++ [conditionCall ctx j step].
Proof.
  rewrite (@shouldExecuteStep_state World ConfigT RegistryT DevPodManagerT J osArgs
             ExecuteShellCommand ctx j step st).
  now destruct (exec_state ExecuteShellCommand (conditionCall ctx j step) st)
    as (_ & -> & _).
Qed.


Lemma executeStep_calls' ctx j step st :
  calls (snd (executeStep ctx j step st)) = calls st ++ [bodyCall ctx j step].
Proof.
  exact (@executeStep_calls World ConfigT RegistryT DevPodManagerT J osArgs
           ExecuteShellCommand ScanLines ctx j step st).
Qed.

Lemma silentCalls_app (cs cs' : list (ShellCall ConfigT RegistryT DevPodManagerT)) :
  silentCalls (cs ++ cs') = silentCalls cs ++ silentCalls cs'.
Proof. apply filter_app. Qed.

(** X1.  The condition checks of a run of the loop are those of the steps
    that have a condition, each checked once, in the order of the steps, up
    to the step where the loop stops; when the loop ends without error every
    one of them has been checked. *)
Theorem conditions_checked_once_in_order ctx j steps : forall i st,
  let out := doSteps ctx j i steps st in
  exists n,
    silentCalls (calls (snd out))
    = silentCalls (calls st)
      ++ map (conditionCall ctx j) (firstn n (conditioned steps)) /\
    (fst out = None -> firstn n (conditioned steps) = conditioned steps).
Proof.
  induction steps as [|step steps IH]; intros i st; cbn zeta.
  - exists 0. cbn. rewrite app_nil_r. auto.
  - rewrite (@doSteps_cons World ConfigT RegistryT DevPodManagerT J osArgs
               ExecuteShellCommand ScanLines ctx j i step steps st).
    unfold conditioned. cbn [filter]. fold (conditioned steps).
    destruct (latest.If step =? "")%string eqn:Eif; cbn [negb].
    + pose proof (executeStep_calls' ctx j step st) as Hb.
      destruct (executeStep ctx j step st) as [[e|] st2]; cbn [fst snd] in *.
      * exists 0. rewrite Hb, silentCalls_app. cbn. rewrite !app_nil_r.
        split; [reflexivity | discriminate].
      * destruct (IH (S i) st2) as (n & Hn & Hall). exists n.
        rewrite Hn, Hb, silentCalls_app. cbn. rewrite app_nil_r.
        split; [reflexivity | exact Hall].
    + pose proof (shouldExecuteStep_calls ctx j step st) as Hc.
      destruct (shouldExecuteStep ctx j step st) as [[execute [e|]] st1];
        cbn [fst snd] in *.
      * exists 1. rewrite Hc, silentCalls_app. cbn.
        split; [reflexivity | discriminate].
      * destruct execute.
        -- pose proof (executeStep_calls' ctx j step st1) as Hb.
           destruct (executeStep ctx j step st1) as [[e|] st2]; cbn [fst snd] in *.
           ++ exists 1. rewrite Hb, Hc, !silentCalls_app. cbn.
              rewrite app_nil_r. split; [reflexivity | discriminate].
           ++ destruct (IH (S i) st2) as (n & Hn & Hall). exists (S n).
              rewrite Hn, Hb, Hc, !silentCalls_app. cbn.
              rewrite app_nil_r, <- app_assoc. cbn.
              split; [reflexivity | intros H; now rewrite (Hall H)].
        -- destruct (IH (S i) st1) as (n & Hn & Hall). exists (S n).
           rewrite Hn, Hc, !silentCalls_app. cbn. rewrite <- app_assoc. cbn.
           split; [reflexivity | intros H; now rewrite (Hall H)].
Qed.

(** X2.  When no step has a condition and the work function returns nil,
    the interpreter calls it has made are exactly the bodies of all the
    steps, each once, in the order of the steps. *)
Theorem unconditioned_success_runs_every_step ctx j st :
  Forall (fun step => latest.If step = ""%string) (latest.Steps (JobConfig j)) ->
  fst (doWork ctx j st) = None ->
  calls (snd (doWork ctx j st))
  = calls st ++ map (bodyCall ctx j) (latest.Steps (JobConfig j)).
Proof.
  unfold pipeline.doWork.
  change (calls st) with (calls (enterWork st)).
  generalize (enterWork st) as st0. generalize 0 as i.
  induction (latest.Steps (JobConfig j)) as [|step steps IH];
    intros i st0 Hall Hnil.
  - cbn. now rewrite app_nil_r.
  - inversion Hall as [|? ? Hstep Hrest]; subst.
    revert Hnil.
    rewrite (@doSteps_cons World ConfigT RegistryT DevPodManagerT J osArgs
               ExecuteShellCommand ScanLines ctx j i step steps st0).
    apply String.eqb_eq in Hstep. rewrite Hstep.
    pose proof (executeStep_calls' ctx j step st0) as Hb.
    destruct (executeStep ctx j step st0) as [[e|] st2]; cbn [fst snd] in *;
      [discriminate|].
    intros Hnil. rewrite (IH (S i) st2 Hrest Hnil), Hb, <- app_assoc.
    reflexivity.
Qed.



End StepRunnerMore.

(** X2, on two steps without conditions that succeed. *)
Lemma unconditioned_success_runs_every_step_witness :
  let node := demo.mkNode [demo.step "true" "";
                           demo.step "echo hello; echo world" ""] [] in
  map (@pipeline.command _ _ _)
      (pipeline.calls (snd (demo.doWork demo.ctx node demo.st0)))
  = ["true"%string; "echo hello; echo world"%string].
Proof.
  cbn zeta. unfold demo.doWork.
  rewrite (@unconditioned_success_runs_every_step demo.World unit unit unit
             demo.Job [] demo.shell demo.lines demo.ctx
             (demo.mkNode [demo.step "true" "";
                           demo.step "echo hello; echo world" ""] [])
             demo.st0).
  - reflexivity.
  - repeat constructor.
  - reflexivity.
Defined.


(* ================================================================== *)
(** * Further properties of [Run] *)

Section RunMore.

Import pipeline trace.

Variables World ConfigT RegistryT DevPodManagerT J : Type.
Variable osArgs : list string.
Variable ExecuteShellCommand :
  ShellCall ConfigT RegistryT DevPodManagerT -> World -> ShellResult * World.
Variable ScanLines : pipeline.Scanner.
Context {JobOps : JobInterface World ConfigT RegistryT DevPodManagerT J}.

Local Abbreviation State := (pipeline.State World ConfigT RegistryT DevPodManagerT).
Local Abbreviation PipelineJob := (pipeline.PipelineJob RegistryT DevPodManagerT J).
Local Abbreviation System := (pipeline.System World ConfigT RegistryT DevPodManagerT J).
Local Abbreviation startBody :=
  (@pipeline.startBody _ _ _ _ osArgs ExecuteShellCommand ScanLines J JobOps).
Local Abbreviation Run :=
  (@pipeline.Run _ _ _ _ osArgs ExecuteShellCommand ScanLines J JobOps).
Local Abbreviation RunSeq :=
  (@pipeline.RunSeq _ _ _ _ osArgs ExecuteShellCommand ScanLines J JobOps).
Local Abbreviation schedule :=
  (@pipeline.schedule _ _ _ _ osArgs ExecuteShellCommand ScanLines J JobOps).

Implicit Types (ctx : Context ConfigT) (gate : nat -> GateView)
         (j : PipelineJob) (st : State) (s : System)
         (cs : list (Context ConfigT * (nat -> GateView))).

(** X4.  [Run] is idempotent whatever its outcome: once a call has
    returned a value, an error or nil, every later call returns that value
    and hands back the node and the state as it found them. *)
Theorem Run_is_idempotent ctx gate j st r j' st' :
  Run ctx gate j st = Some (r, j', st') ->
  forall cs st2, RunSeq cs j' st2 = Some (repeat r (length cs), j', st2).
Proof.
  intros H cs st2.
  destruct (@Run_returns World ConfigT RegistryT DevPodManagerT J osArgs
              ExecuteShellCommand ScanLines JobOps ctx gate j st r j' st' H)
    as [Hdone Herr].
  rewrite <- Herr.
  exact (@RunSeq_completed World ConfigT RegistryT DevPodManagerT J osArgs
           ExecuteShellCommand ScanLines JobOps cs j' st2 Hdone).
Qed.

(** The gating loop lets the node proceed exactly when every [select], one
    per parent, takes the case of the parent. *)
Lemma waitParents_Proceed_iff gate (parents : list NodeRef) : forall k0,
  waitParents gate k0 parents = Proceed <->
  (forall k, k < length parents -> selectCase (gate (k0 + k)) = Some ParentDone).
Proof.
  induction parents as [|p parents IH]; intros k0; cbn [waitParents length].
  - split; [intros _ k Hk; lia | reflexivity].
  - split.
    + intros H k Hk.
      destruct (selectCase (gate k0)) as [[|]|] eqn:E; try discriminate.
      destruct k as [|k]; [now rewrite Nat.add_0_r|].
      rewrite Nat.add_succ_r, <- Nat.add_succ_l.
      apply (proj1 (IH (S k0)) H). lia.
    + intros H. pose proof (H 0 ltac:(lia)) as H0.
      rewrite Nat.add_0_r in H0. rewrite H0.
      apply IH. intros k Hk. rewrite Nat.add_succ_l, <- Nat.add_succ_r.
      apply H. lia.
Qed.

(** X6.  Parent gating.  On a node that has not run, when the [select] for
    some parent does not take the case of that parent, a call of [Run] that
    returns has left the job and the state as they were and returns the
    error slot as it was: the job is started only after every parent has
    been found done. *)
Theorem Run_starts_job_only_after_parents ctx gate j st k r j' st' :
  startOnce j = NotStarted ->
  k < length (Parents j) ->
  selectCase (gate k) <> Some ParentDone ->
  Run ctx gate j st = Some (r, j', st') ->
  Job j' = Job j /\ st' = st /\ r = err j.
Proof.
  intros Hns Hk Hsel. unfold pipeline.Run, pipeline.startBody. rewrite Hns.
  destruct (waitParents gate 0 (Parents j)) eqn:Ew.
  - exfalso. apply Hsel.
    exact (proj1 (waitParents_Proceed_iff gate (Parents j) 0) Ew k Hk).
  - intros [= <- <- <-]. repeat split.
  - discriminate.
Qed.

(** X7.  Under every interleaving of the callers of [Run] on a node that
    has not run, and for every implementation of the job, the node and the
    state are as at the start, or as at the start with the guard taken, or
    as one single run of the guarded function from the start has left them:
    the job is never started twice. *)
Theorem guarded_function_runs_at_most_once cs j st (ks : list nat) :
  startOnce j = NotStarted ->
  let s := schedule ks (initial cs j st) in
  (node s = j /\ store s = st) \/
  (node s = set_startOnce InProgress j /\ store s = st) \/
  (exists ctx gate j' st',
      startBody ctx gate (set_startOnce InProgress j) st = Some (j', st') /\
      node s = set_startOnce Completed j' /\ store s = st').
Proof.
  intros Hns s.
  assert (HP : Phase osArgs ExecuteShellCommand ScanLines j st s).
  { apply schedule_Phase; [assumption | apply initial_Phase]. }
  destruct HP as [Hn Hs _ | k0 ctx0 gate0 Hn Hs _ _
                  | ctx0 gate0 j' st' Hbody Hn Hs _].
  - left. now split.
  - right. left. now split.
  - right. right. exists ctx0, gate0, j', st'. now repeat split.
Qed.

End RunMore.

Section SimpleJobMore.

Import pipeline trace.

Variables World ConfigT RegistryT DevPodManagerT : Type.
Variable osArgs : list string.
Variable ExecuteShellCommand :
  ShellCall ConfigT RegistryT DevPodManagerT -> World -> ShellResult * World.
Variable ScanLines : pipeline.Scanner.

Local Abbreviation State := (pipeline.State World ConfigT RegistryT DevPodManagerT).
Local Abbreviation SimpleJob :=
  (pipeline.SimpleJob World ConfigT RegistryT DevPodManagerT).
Local Abbreviation PipelineJob :=
  (pipeline.PipelineJob RegistryT DevPodManagerT SimpleJob).
Local Abbreviation doSteps :=
  (@pipeline.doSteps _ _ _ _ osArgs ExecuteShellCommand ScanLines SimpleJob).
Local Abbreviation doWork :=
  (@pipeline.doWork _ _ _ _ osArgs ExecuteShellCommand ScanLines SimpleJob).
Local Abbreviation Run :=
  (@pipeline.Run _ _ _ _ osArgs ExecuteShellCommand ScanLines SimpleJob
     (@SimpleJob_Job World ConfigT RegistryT DevPodManagerT)).

Implicit Types (ctx : Context ConfigT) (gate : nat -> GateView)
         (j : PipelineJob) (st : State).

(** X8.  On a node that has not run, whose parents are all found done and
    whose job starts, [Run] returns the error of the work function, nil
    when it returns nil, and hands back the state the work function has
    left; the job has finished with that error as its terminal error. *)
Theorem Run_returns_the_work_result ctx gate j st :
  startOnce j = NotStarted ->
  err j = None ->
  (forall k, k < length (Parents j) -> selectCase (gate k) = Some ParentDone) ->
  setupError (Job j) = None ->
  exists j',
    Run ctx gate j st = Some (fst (doWork ctx j st), j', snd (doWork ctx j st)) /\
    err j' = fst (doWork ctx j st) /\
    finished (Job j') = true /\
    terminal (Job j') = fst (doWork ctx j st).
Proof.
  intros Hns Herr Hgate Hsetup.
  assert (Hw : waitParents gate 0 (Parents j) = Proceed).
  { now apply waitParents_Proceed_iff. }
  unfold pipeline.Run, pipeline.startBody. rewrite Hns, Hw.
  cbn [Start SimpleJob_Job]. unfold SimpleJob_Start. rewrite Hsetup.
  cbn [Await SimpleJob_Job]. unfold SimpleJob_Await. cbn [finished work].
  destruct (doWork ctx j st) as [r st1]. cbn [fst snd JobError terminal].
  destruct r as [e|].
  - eexists. repeat split.
  - destruct (latest.Rerun (JobConfig j)); eexists;
      (split; [cbn; rewrite Herr; reflexivity | cbn; auto]).
Qed.

(** X9.  On a node that has not run and whose parents are all found done,
    a job whose start fails makes [Run] return the error of the start; the
    work function is not entered, and the state and the job are as they
    were. *)
Theorem Run_returns_the_start_error ctx gate j st e :
  startOnce j = NotStarted ->
  (forall k, k < length (Parents j) -> selectCase (gate k) = Some ParentDone) ->
  setupError (Job j) = Some e ->
  exists j',
    Run ctx gate j st = Some (Some e, j', st) /\
    err j' = Some e /\ Job j' = Job j.
Proof.
  intros Hns Hgate Hsetup.
  assert (Hw : waitParents gate 0 (Parents j) = Proceed).
  { now apply waitParents_Proceed_iff. }
  unfold pipeline.Run, pipeline.startBody. rewrite Hns, Hw.
  cbn [Start SimpleJob_Job]. unfold SimpleJob_Start. rewrite Hsetup.
  eexists. repeat split.
Qed.

(** The loop reads the node only for the handles it gives to the command
    dispatcher, so the rerun policy does not reach it. *)
Lemma doSteps_withRerun r ctx j steps : forall i st,
  doSteps ctx (withRerun r j) i steps st = doSteps ctx j i steps st.
Proof.
  induction steps as [|step steps IH]; intros i st; [reflexivity|].
  rewrite !(@doSteps_cons World ConfigT RegistryT DevPodManagerT SimpleJob osArgs
              ExecuteShellCommand ScanLines).
  change (pipeline.shouldExecuteStep osArgs ExecuteShellCommand ctx
            (withRerun r j) step st)
    with (pipeline.shouldExecuteStep osArgs ExecuteShellCommand ctx j step st).
  destruct (latest.If step =? "")%string.
  - change (pipeline.executeStep osArgs ExecuteShellCommand ScanLines ctx
              (withRerun r j) step st)
      with (pipeline.executeStep osArgs ExecuteShellCommand ScanLines ctx j step st).
    destruct (pipeline.executeStep osArgs ExecuteShellCommand ScanLines ctx j step st)
      as [[e|] st2]; [reflexivity | apply IH].
  - destruct (pipeline.shouldExecuteStep osArgs ExecuteShellCommand ctx j step st)
      as [[execute [e|]] st1]; [reflexivity|].
    destruct execute; [|apply IH].
    change (pipeline.executeStep osArgs ExecuteShellCommand ScanLines ctx
              (withRerun r j) step st1)
      with (pipeline.executeStep osArgs ExecuteShellCommand ScanLines ctx j step st1).
    destruct (pipeline.executeStep osArgs ExecuteShellCommand ScanLines ctx j step st1)
      as [[e|] st2]; [reflexivity | apply IH].
Qed.

(** X10.  The rerun policy is inert: a node that declares one runs as the
    same node without it does, with the same value returned, the same state
    and the same node but for the policy itself. *)
Theorem Run_ignores_the_rerun_policy r ctx gate j st :
  Run ctx gate (withRerun r j) st =
  match Run ctx gate j st with
  | Some (e, j1, st1) => Some (e, withRerun r j1, st1)
  | None => None
  end.
Proof.
  unfold pipeline.Run, pipeline.startBody.
  change (startOnce (withRerun r j)) with (startOnce j).
  change (Parents (withRerun r j)) with (Parents j).
  destruct (startOnce j); try reflexivity.
  destruct (waitParents gate 0 (Parents j)); try reflexivity.
  cbn [Start SimpleJob_Job]. unfold SimpleJob_Start.
  change (Job (withRerun r j)) with (Job j).
  destruct (setupError (Job j)) as [e|]; [reflexivity|].
  cbn [Await SimpleJob_Job]. unfold SimpleJob_Await. cbn [finished work].
  unfold pipeline.doWork.
  change (latest.Steps (JobConfig (withRerun r j)))
    with (latest.Steps (JobConfig j)).
  rewrite doSteps_withRerun.
  destruct (doSteps ctx j 0 (latest.Steps (JobConfig j)) (enterWork st))
    as [res st1].
  cbn [JobError terminal].
  destruct res as [e|]; [reflexivity|].
  change (latest.Rerun (JobConfig (withRerun r j))) with r.
  destruct r, (latest.Rerun (JobConfig j)); reflexivity.
Qed.

End SimpleJobMore.

(** *** [Run] on concrete nodes *)

(** X4, on a node whose step succeeds: the first call returns nil, and so
    do two later calls. *)
Lemma Run_is_idempotent_witness :
  let node := demo.mkNode [demo.step "true" ""] [] in
  exists j' st',
    demo.Run demo.ctx demo.parentsDone node demo.st0 = Some (None, j', st') /\
    demo.RunSeq [(demo.ctx, demo.cancelled); (demo.ctx, demo.parentsDone)] j' st'
    = Some ([None; None], j', st').
Proof.
  cbn zeta. unfold demo.Run, demo.RunSeq.
  eexists. eexists. split; [reflexivity|].
  match goal with
  | |- pipeline.RunSeq _ _ _ _ ?j' ?st' = _ =>
      apply (@Run_is_idempotent demo.World unit unit unit demo.Job []
               demo.shell demo.lines demo.JobOps demo.ctx demo.parentsDone
               (demo.mkNode [demo.step "true" ""] []) demo.st0 None j' st')
  end.
  reflexivity.
Defined.

(** X6, on a node with two parents, the second still running when the run
    is cancelled. *)
Lemma Run_starts_job_only_after_parents_witness :
  let node := demo.mkNode [demo.step "true" ""] ["a"%string; "b"%string] in
  exists r j' st',
    demo.Run demo.ctx (demo.cancelledAt 1) node demo.st0 = Some (r, j', st') /\
    pipeline.Job j' = demo.job0 /\ st' = demo.st0 /\ r = None.
Proof.
  cbn zeta. unfold demo.Run.
  eexists. eexists. eexists. split; [reflexivity|].
  apply (@Run_starts_job_only_after_parents demo.World unit unit unit demo.Job []
           demo.shell demo.lines demo.JobOps demo.ctx (demo.cancelledAt 1)
           (demo.mkNode [demo.step "true" ""] ["a"%string; "b"%string])
           demo.st0 1).
  - reflexivity.
  - cbn. lia.
  - discriminate.
  - reflexivity.
Defined.

(** X7, on one caller of a root node that moves twice: the guarded function
    has run once from the start. *)
Lemma guarded_function_runs_at_most_once_witness :
  let node := demo.mkNode [demo.step "true" ""] [] in
  let s := demo.schedule [0; 0]
             (pipeline.initial [(demo.ctx, demo.parentsDone)] node demo.st0) in
  ((pipeline.node s = node /\ pipeline.store s = demo.st0) \/
   (pipeline.node s = pipeline.set_startOnce pipeline.InProgress node /\
    pipeline.store s = demo.st0) \/
   (exists ctx gate j' st',
       pipeline.startBody [] demo.shell demo.lines (JobOps := demo.JobOps)
         ctx gate (pipeline.set_startOnce pipeline.InProgress node) demo.st0
       = Some (j', st') /\
       pipeline.node s = pipeline.set_startOnce pipeline.Completed j' /\
       pipeline.store s = st')) /\
  pipeline.workRuns (pipeline.store s) = 1.
Proof.
  cbn zeta. split; [|reflexivity].
  apply (@guarded_function_runs_at_most_once demo.World unit unit unit demo.Job []
           demo.shell demo.lines demo.JobOps
           [(demo.ctx, demo.parentsDone)]
           (demo.mkNode [demo.step "true" ""] []) demo.st0 [0; 0]).
  reflexivity.
Defined.

(** X8, on a node whose second step fails. *)
Lemma Run_returns_the_work_result_witness :
  let node := demo.mkNode [demo.step "echo hello; echo world" "";
                           demo.step "exit 2" ""] ["root"%string] in
  exists j',
    demo.Run demo.ctx demo.parentsDone node demo.st0
    = Some (Some (ExitStatus 2), j', snd (demo.doWork demo.ctx node demo.st0)) /\
    pipeline.err j' = Some (ExitStatus 2).
Proof.
  cbn zeta. unfold demo.Run, demo.doWork.
  destruct (@Run_returns_the_work_result demo.World unit unit unit [] demo.shell
              demo.lines demo.ctx demo.parentsDone
              (demo.mkNode [demo.step "echo hello; echo world" "";
                            demo.step "exit 2" ""] ["root"%string])
              demo.st0 eq_refl eq_refl (fun k _ => eq_refl) eq_refl)
    as (j' & HR & He & _).
  exists j'. split; [exact HR | exact He].
Defined.

(** X9, on a node whose job cannot start. *)
Lemma Run_returns_the_start_error_witness :
  let node := demo_jobs.brokenNode [demo.step "true" ""] ["root"%string] in
  exists j',
    demo.Run demo.ctx demo.parentsDone node demo.st0
    = Some (Some (ShellError "no cluster"), j', demo.st0) /\
    pipeline.Job j' = demo_jobs.brokenJob.
Proof.
  cbn zeta. unfold demo.Run.
  destruct (@Run_returns_the_start_error demo.World unit unit unit [] demo.shell
              demo.lines demo.ctx demo.parentsDone
              (demo_jobs.brokenNode [demo.step "true" ""] ["root"%string])
              demo.st0 (ShellError "no cluster") eq_refl (fun k _ => eq_refl)
              eq_refl)
    as (j' & HR & _ & HJ).
  exists j'. split; [exact HR | exact HJ].
Defined.

(* ================================================================== *)
(** * Further properties of the print command *)

Section PrintTreeFacts.

Import types cmd print.

Lemma takeWhile_app {A : Type} (f : A -> bool) (a b : list A) :
  takeWhile f (a ++ b)
  = if forallb f a then a ++ takeWhile f b else takeWhile f a.
Proof.
  induction a as [|x a IH]; [reflexivity|].
  cbn [app takeWhile forallb]. destruct (f x); [|reflexivity].
  cbn [andb]. rewrite IH. now destruct (forallb f a).
Qed.

Lemma takeWhile_all {A : Type} (f : A -> bool) (a : list A) :
  forallb f a = true -> takeWhile f a = a.
Proof.
  induction a as [|x a IH]; [reflexivity|].
  cbn [takeWhile forallb]. destruct (f x); [|discriminate].
  intros H. now rewrite IH.
Qed.

(** The end of a call by whether it panics. *)
Local Abbreviation ends b log := (if b then Panics log else Returns log).

(** What the printer does on a tree, and that the IDs of the walk are all
    long exactly when the tree has no short ID. *)
Local Abbreviation tree_spec dep :=
  (forall prefix log,
      printDependencyRecursive prefix dep log
      = ends (hasShortID dep)
             (log ++ map line (takeWhile longID (walk prefix dep))) /\
      forallb longID (walk prefix dep) = negb (hasShortID dep)).

Lemma printChildren_output (children : list types.Dependency) :
  Forall (fun dep => tree_spec dep) children ->
  forall prefix log,
    printChildren prefix children log
    = ends (existsb hasShortID children)
           (log ++ map line (takeWhile longID (flat_map (walk prefix) children))) /\
    forallb longID (flat_map (walk prefix) children)
    = negb (existsb hasShortID children).
Proof.
  induction 1 as [|child children Hc _ IH]; intros prefix log.
  - cbn. now rewrite app_nil_r.
  - destruct (Hc prefix log) as [Hp Hl].
    cbn [printChildren flat_map existsb]. rewrite Hp, takeWhile_app, forallb_app, Hl.
    destruct (hasShortID child); cbn [negb orb andb]; [split; reflexivity|].
    destruct (IH prefix (log ++ map line (takeWhile longID (walk prefix child))))
      as [Hp' Hl'].
    rewrite Hp', Hl'. split; [|reflexivity].
    rewrite (takeWhile_all longID (walk prefix child)) by (now rewrite Hl).
    now rewrite map_app, app_assoc.
Qed.

Lemma printDependencyRecursive_tree_spec dep : tree_spec dep.
Proof.
  induction dep as [name id children IH] using Dependency_tree_ind.
  intros prefix log. rewrite printDependencyRecursive_eq.
  destruct (printChildren_output IH (prefix ++ "--")%string
              (log ++ [line (prefix, Dep name id children)])) as [Hp Hl].
  assert (Hlong : longID (prefix, Dep name id children)
                  = negb (String.length id <? 5)%nat).
  { unfold longID. cbn [snd ID].
    destruct (Nat.leb_spec 5 (String.length id)),
             (Nat.ltb_spec (String.length id) 5); try reflexivity; lia. }
  assert (Hslice : slice_to id 5
                   = if (String.length id <? 5)%nat then None
                     else Some (String.substring 0 5 id)).
  { unfold slice_to.
    destruct (Nat.leb_spec 5 (String.length id)),
             (Nat.ltb_spec (String.length id) 5); try reflexivity; lia. }
  cbn [walk takeWhile forallb hasShortID]. rewrite Hlong, Hslice.
  destruct (String.length id <? 5)%nat; cbn [orb andb negb map].
  - now rewrite app_nil_r.
  - split; [|exact Hl].
    change (prefix ++ "> " ++ name ++ " (ID: " ++ String.substring 0 5 id
                   ++ ")" ++ newline)%string
      with (line (prefix, Dep name id children)).
    rewrite Hp. now rewrite <- app_assoc.
Qed.

(** X11.  What the dependency printer writes.  The lines go after what the
    log already holds; they are those of the dependencies in preorder, a
    parent before its children and the children in their order, each with
    two more dashes than its parent and the first five bytes of its ID, up
    to the first dependency whose ID is shorter than five bytes; the call
    panics there, and returns when there is none. *)
Theorem printDependencyRecursive_output prefix dep log :
  printDependencyRecursive prefix dep log
  = (if hasShortID dep then Panics else Returns)
      (log ++ map line (takeWhile longID (walk prefix dep))).
Proof.
  destruct (printDependencyRecursive_tree_spec dep prefix log) as [H _].
  rewrite H. now destruct (hasShortID dep).
Qed.

(** The loop over a list of dependencies, in the same terms. *)
Lemma printChildren_ends prefix (deps : list types.Dependency) log :
  printChildren prefix deps log
  = (if existsb hasShortID deps then Panics else Returns)
      (log ++ map line (takeWhile longID (flat_map (walk prefix) deps))).
Proof.
  assert (H : Forall (fun dep => tree_spec dep) deps).
  { apply Forall_forall. intros dep _. apply printDependencyRecursive_tree_spec. }
  destruct (printChildren_output H prefix log) as [Hp _].
  rewrite Hp. now destruct (existsb hasShortID deps).
Qed.

End PrintTreeFacts.

Section PrintCmdFacts.

Import print.

Variables ClientT ConfigT OptionsT ValueT : Type.
Variable Variables : ConfigT -> list (string * ValueT).
Variable Path : ConfigT -> string.
Variable Sprint : ValueT -> string.
Variable ConfigNotFound : string.
Variable ToConfigOptions : GlobalFlags -> OptionsT.
Variable SetDevSpaceRoot : string -> bool * option error.
Variable NewKubeClientFromContext :
  string -> string -> bool -> option ClientT * option error.
Variable LoadWithParser :
  string -> ConfigOptions ClientT OptionsT -> ConfigT * option error.
Variable Load :
  string -> ConfigOptions ClientT OptionsT -> ConfigT * option error.
Variable ResolveAll :
  ConfigT -> option ClientT -> ConfigOptions ClientT OptionsT ->
  list types.Dependency * option error.
Variable ExecuteHooks :
  option ClientT -> ConfigT -> list types.Dependency -> string -> option error.
Variable GetDependencyByPath :
  list types.Dependency -> string -> option types.Dependency.
Variable DependencyConfig : types.Dependency -> ConfigT.
Variable Marshal : ConfigT -> string * option error.

Local Abbreviation printExtraInfo := (print.printExtraInfo Variables Path Sprint).
Local Abbreviation Run :=
  (print.Run Variables Path Sprint ConfigNotFound ToConfigOptions SetDevSpaceRoot
     NewKubeClientFromContext LoadWithParser Load ResolveAll ExecuteHooks
     GetDependencyByPath DependencyConfig Marshal).

Implicit Types (c : PrintCmd) (st : RunState) (config : ConfigT)
         (deps : list types.Dependency).

(** X12.  [printExtraInfo] never returns an error: it returns nil, or it
    panics, and it panics exactly when some dependency of some tree it is
    given has an ID shorter than five bytes; with no dependency at all it
    returns nil. *)
Theorem printExtraInfo_never_fails config deps (l : list LogEvent) :
  fst (printExtraInfo config deps l)
  = if existsb cmd.hasShortID deps then Crashed else Finished None.
Proof.
  unfold print.printExtraInfo.
  destruct deps as [|dep deps]; [reflexivity|].
  cbn [length Nat.ltb Nat.leb]. rewrite printChildren_ends.
  now destruct (existsb cmd.hasShortID (dep :: deps)).
Qed.

(** [printExtraInfo] does not look at the bytes given to [Out], and
    [writeConfig] gives it at most the marshalled configuration. *)
Lemma writeConfig_out c yaml st :
  let r := writeConfig c yaml st in
  match Out c with
  | Some write => out (snd r) = out st ++ [yaml] /\ fst r = Finished (write yaml)
  | None => out (snd r) = out st /\ fst r = Finished None /\
            log (snd r) = log st ++ [WriteString yaml]
  end.
Proof.
  unfold writeConfig. destruct (Out c) as [write|]; cbn.
  - destruct (write yaml); cbn; auto.
  - auto.
Qed.

Local Abbreviation selectConfig :=
  (print.selectConfig GetDependencyByPath DependencyConfig).

(** X13.  [Run] gives [Out] at most one byte string and only as its last
    act.  Either [Out] has received nothing, and then, if there is an
    [Out], the call has not returned nil: it stopped earlier, with an error
    or in a panic.  Or [Out] has received exactly the bytes that [Marshal]
    made of the configuration [Run] selected, the one it loaded with the
    kube client it got, or that of the dependency the flag names among the
    dependencies it resolved; what [Run] returns is then what that write
    returned. *)
Theorem Run_writes_Out_at_most_once c st :
  let r := Run c st in
  (out (snd r) = out st /\
   (forall write, Out c = Some write -> fst r <> Finished None)) \/
  (exists write client cerr config deps derr config' yaml,
     let options := {| base := ToConfigOptions (Flags c); KubeClient := client |} in
     Out c = Some write /\
     NewKubeClientFromContext (KubeContext (Flags c)) (Namespace (Flags c))
                              (SwitchContext (Flags c)) = (client, cerr) /\
     (if EagerVars c then LoadWithParser (ConfigPath (Flags c)) options
      else Load (ConfigPath (Flags c)) options) = (config, None) /\
     ResolveAll config client options = (deps, derr) /\
     selectConfig c config deps = inl config' /\
     Marshal config' = (yaml, None) /\
     out (snd r) = out st ++ [yaml] /\
     fst r = Finished (write yaml)).
Proof.
  cbn zeta. unfold print.Run.
  destruct (SetDevSpaceRoot (ConfigPath (Flags c))) as [configExists err0].
  destruct err0 as [e|]; [left; split; [reflexivity | discriminate]|].
  destruct configExists; cbn [negb];
    [|left; split; [reflexivity | discriminate]].
  destruct (NewKubeClientFromContext (KubeContext (Flags c)) (Namespace (Flags c))
              (SwitchContext (Flags c))) as [client cerr] eqn:Eclient.
  match goal with
  | |- context [let (_, _) := ?load in _] =>
      destruct load as [config lerr] eqn:Eload
  end.
  assert (H1 : out (match cerr with
                    | Some e => warn ("Unable to create new kubectl client: "
                                      ++ Error e)%string st
                    | None => st
                    end) = out st) by now destruct cerr.
  destruct lerr as [e|]; [left; split; [exact H1 | discriminate]|].
  destruct (ResolveAll config client
              {| base := ToConfigOptions (Flags c); KubeClient := client |})
    as [deps derr] eqn:Edeps.
  match goal with
  | |- context [ExecuteHooks client config deps "print"] =>
      match goal with
      | |- context [match ExecuteHooks _ _ _ _ with
                    | Some _ => (_, ?st2) | None => _ end] =>
          assert (H2 : out st2 = out st) by (destruct derr; exact H1);
          generalize dependent st2
      end
  end.
  intros st2 H2.
  destruct (ExecuteHooks client config deps "print") as [e|];
    [left; split; [exact H2 | discriminate]|].
  destruct (selectConfig c config deps) as [config'|e] eqn:Esel;
    [|left; split; [exact H2 | discriminate]].
  destruct (Marshal config') as [yaml merr] eqn:Eyaml.
  destruct merr as [e|]; [left; split; [exact H2 | discriminate]|].
  assert (Hw : forall st', out st' = out st ->
             match Out c with
             | Some write =>
                 out (snd (writeConfig c yaml st')) = out st ++ [yaml] /\
                 fst (writeConfig c yaml st') = Finished (write yaml)
             | None => out (snd (writeConfig c yaml st')) = out st
             end).
  { intros st' Hst'. pose proof (writeConfig_out c yaml st') as H.
    cbn zeta in H. destruct (Out c) as [write|].
    - now rewrite <- Hst'.
    - rewrite <- Hst'. apply H. }
  assert (Hend : forall st',
             out st' = out st ->
             (out (snd (writeConfig c yaml st')) = out st /\
              (forall write, Out c = Some write ->
                             fst (writeConfig c yaml st') <> Finished None)) \/
             (exists write,
                Out c = Some write /\
                out (snd (writeConfig c yaml st')) = out st ++ [yaml] /\
                fst (writeConfig c yaml st') = Finished (write yaml))).
  { intros st' Hst'. specialize (Hw st' Hst').
    destruct (Out c) as [write|].
    - right. exists write. split; [reflexivity | exact Hw].
    - left. split; [exact Hw | discriminate]. }
  assert (Hgoal : forall st',
             out st' = out st ->
             (out (snd (writeConfig c yaml st')) = out st /\
              (forall write, Out c = Some write ->
                             fst (writeConfig c yaml st') <> Finished None)) \/
             (exists write client0 cerr0 config0 deps0 derr0 config0' yaml0,
                Out c = Some write /\
                (client, cerr) = (client0, cerr0) /\
                (if EagerVars c
                 then LoadWithParser (ConfigPath (Flags c))
                        {| base := ToConfigOptions (Flags c); KubeClient := client0 |}
                 else Load (ConfigPath (Flags c))
                        {| base := ToConfigOptions (Flags c); KubeClient := client0 |})
                = (config0, None) /\
                ResolveAll config0 client0
                  {| base := ToConfigOptions (Flags c); KubeClient := client0 |}
                = (deps0, derr0) /\
                selectConfig c config0 deps0 = inl config0' /\
                Marshal config0' = (yaml0, None) /\
                out (snd (writeConfig c yaml st')) = out st ++ [yaml0] /\
                fst (writeConfig c yaml st') = Finished (write yaml0))).
  { intros st' Hst'. destruct (Hend st' Hst') as [H|(write & Ho & Hout & Hf)].
    - now left.
    - right. exists write, client, cerr, config, deps, derr, config', yaml.
      repeat split; assumption. }
  destruct (SkipInfo c); [apply Hgoal; exact H2|].
  destruct (printExtraInfo config' deps (log st2)) as [[[e|]|] log'].
  - left. split; [exact H2 | discriminate].
  - apply Hgoal. exact H2.
  - left. split; [exact H2 | discriminate].
Qed.

(** The stages of [Run] up to the plugin hook, when the configuration is
    found and loaded and the hook succeeds: the failures of the kube client
    and of the resolution of the dependencies leave a warning each. *)
Lemma Run_after_hooks c st client cerr config deps derr :
  let options := {| base := ToConfigOptions (Flags c); KubeClient := client |} in
  let st2 := {| log := log st
                       ++ warning "Unable to create new kubectl client: " cerr
                       ++ warning "Error resolving dependencies: " derr;
                out := out st |} in
  SetDevSpaceRoot (ConfigPath (Flags c)) = (true, None) ->
  NewKubeClientFromContext (KubeContext (Flags c)) (Namespace (Flags c))
                           (SwitchContext (Flags c)) = (client, cerr) ->
  (if EagerVars c then LoadWithParser (ConfigPath (Flags c)) options
   else Load (ConfigPath (Flags c)) options) = (config, None) ->
  ResolveAll config client options = (deps, derr) ->
  ExecuteHooks client config deps "print" = None ->
  Run c st =
  match selectConfig c config deps with
  | inr e => (Finished (Some e), st2)
  | inl config' =>
      let (bsConfig, err) := Marshal config' in
      match err with
      | Some e => (Finished (Some e), st2)
      | None =>
          if SkipInfo c then writeConfig c bsConfig st2
          else
            let (ended, log') := printExtraInfo config' deps (log st2) in
            let st3 := {| log := log'; out := out st2 |} in
            match ended with
            | Crashed => (Crashed, st3)
            | Finished (Some e) => (Finished (Some e), st3)
            | Finished None => writeConfig c bsConfig st3
            end
      end
  end.
Proof.
  intros options st2 Hroot Hclient Hload Hdeps Hhooks.
  unfold print.Run. rewrite Hroot, Hclient. cbn [negb].
  fold options. rewrite Hload. rewrite Hdeps, Hhooks.
  assert (Hst : (match derr with
                 | Some e =>
                     warn ("Error resolving dependencies: " ++ Error e)%string
                          match cerr with
                          | Some e0 =>
                              warn ("Unable to create new kubectl client: "
                                    ++ Error e0)%string st
                          | None => st
                          end
                 | None =>
                     match cerr with
                     | Some e0 =>
                         warn ("Unable to create new kubectl client: "
                               ++ Error e0)%string st
                     | None => st
                     end
                 end) = st2).
  { subst st2. unfold warn, warning.
    destruct st as [l o], cerr, derr; cbn [log out];
      rewrite ?app_nil_r, <- ?app_assoc; reflexivity. }
  rewrite Hst. reflexivity.
Qed.

(** What [printExtraInfo] writes goes after what the log holds. *)
Lemma printExtraInfo_extends config deps (l : list LogEvent) :
  exists more, snd (printExtraInfo config deps l) = l ++ more.
Proof.
  unfold print.printExtraInfo.
  destruct (0 <? length (map _ (Variables config)))%nat;
    destruct (0 <? length deps)%nat;
    try destruct (cmd.printChildren "--" deps []);
    cbn [snd]; rewrite <- ?app_assoc; eexists; reflexivity.
Qed.

(** X15.  A kube client that cannot be created and dependencies that
    cannot be resolved do not make [Run] fail.  When the configuration is
    found, loaded and marshalled, the hook succeeds, the extra information
    is skipped or no resolved dependency has an ID shorter than five bytes,
    and the write to [Out] succeeds, [Run] returns nil, [Out] has received
    the marshalled configuration, and the log holds what it held and a
    warning for each of those two failures. *)
Theorem Run_survives_client_and_dependency_errors
        c st client cerr config deps derr config' yaml write :
  let options := {| base := ToConfigOptions (Flags c); KubeClient := client |} in
  SetDevSpaceRoot (ConfigPath (Flags c)) = (true, None) ->
  NewKubeClientFromContext (KubeContext (Flags c)) (Namespace (Flags c))
                           (SwitchContext (Flags c)) = (client, cerr) ->
  (if EagerVars c then LoadWithParser (ConfigPath (Flags c)) options
   else Load (ConfigPath (Flags c)) options) = (config, None) ->
  ResolveAll config client options = (deps, derr) ->
  ExecuteHooks client config deps "print" = None ->
  selectConfig c config deps = inl config' ->
  Marshal config' = (yaml, None) ->
  SkipInfo c = true \/ existsb cmd.hasShortID deps = false ->
  Out c = Some write ->
  write yaml = None ->
  let r := Run c st in
  fst r = Finished None /\
  out (snd r) = out st ++ [yaml] /\
  incl (log st
        ++ warning "Unable to create new kubectl client: " cerr
        ++ warning "Error resolving dependencies: " derr)
       (log (snd r)).
Proof.
  intros options Hroot Hclient Hload Hdeps Hhooks Hsel Hyaml Hinfo Hout Hwrite.
  cbn zeta.
  rewrite (Run_after_hooks c st Hroot Hclient Hload Hdeps Hhooks).
  rewrite Hsel, Hyaml.
  destruct (SkipInfo c) eqn:Hskip.
  - unfold writeConfig. rewrite Hout, Hwrite. cbn [fst snd log out].
    repeat split. apply incl_refl.
  - destruct Hinfo as [Hinfo|Hlong]; [discriminate|].
    cbn [log out].
    match goal with
    | |- context [printExtraInfo ?cfg ?d ?l] =>
        pose proof (printExtraInfo_never_fails cfg d l) as Hx;
        destruct (printExtraInfo_extends cfg d l) as [more Hmore];
        destruct (printExtraInfo cfg d l) as [ended l']
    end.
    cbn [fst snd] in Hx, Hmore. rewrite Hlong in Hx. subst ended l'.
    unfold writeConfig. rewrite Hout, Hwrite. cbn [fst snd log out].
    repeat split. rewrite app_assoc. apply incl_appl, incl_refl.
Qed.

(** X16.  When the dependency flag names a path that is not found among
    the resolved dependencies, [Run] returns an error whose text holds that
    path; the configuration is not marshalled and [Out] receives nothing. *)
Theorem Run_reports_the_missing_dependency
        c st client cerr config deps derr :
  let options := {| base := ToConfigOptions (Flags c); KubeClient := client |} in
  SetDevSpaceRoot (ConfigPath (Flags c)) = (true, None) ->
  NewKubeClientFromContext (KubeContext (Flags c)) (Namespace (Flags c))
                           (SwitchContext (Flags c)) = (client, cerr) ->
  (if EagerVars c then LoadWithParser (ConfigPath (Flags c)) options
   else Load (ConfigPath (Flags c)) options) = (config, None) ->
  ResolveAll config client options = (deps, derr) ->
  ExecuteHooks client config deps "print" = None ->
  Dependency c <> ""%string ->
  GetDependencyByPath deps (Dependency c) = None ->
  exists e,
    fst (Run c st) = Finished (Some e) /\
    strings.Contains (Error e) (Dependency c) = true /\
    out (snd (Run c st)) = out st.
Proof.
  intros options Hroot Hclient Hload Hdeps Hhooks Hflag Hnone.
  rewrite (Run_after_hooks c st Hroot Hclient Hload Hdeps Hhooks).
  unfold print.selectConfig. apply String.eqb_neq in Hflag.
  rewrite Hflag, Hnone. eexists. split; [reflexivity|]. split; [|reflexivity].
  cbn [Error]. apply Contains_app.
Qed.

(** X17.  With the extra information printed, a resolved dependency whose
    ID is shorter than five bytes makes [Run] panic after everything else
    has succeeded: the configuration, loaded and marshalled without error,
    is never written to [Out]. *)
Theorem Run_panics_on_a_short_dependency_ID
        c st client cerr config deps derr config' yaml :
  let options := {| base := ToConfigOptions (Flags c); KubeClient := client |} in
  SetDevSpaceRoot (ConfigPath (Flags c)) = (true, None) ->
  NewKubeClientFromContext (KubeContext (Flags c)) (Namespace (Flags c))
                           (SwitchContext (Flags c)) = (client, cerr) ->
  (if EagerVars c then LoadWithParser (ConfigPath (Flags c)) options
   else Load (ConfigPath (Flags c)) options) = (config, None) ->
  ResolveAll config client options = (deps, derr) ->
  ExecuteHooks client config deps "print" = None ->
  selectConfig c config deps = inl config' ->
  Marshal config' = (yaml, None) ->
  SkipInfo c = false ->
  existsb cmd.hasShortID deps = true ->
  fst (Run c st) = Crashed /\ out (snd (Run c st)) = out st.
Proof.
  intros options Hroot Hclient Hload Hdeps Hhooks Hsel Hyaml Hskip Hshort.
  rewrite (Run_after_hooks c st Hroot Hclient Hload Hdeps Hhooks).
  rewrite Hsel, Hyaml, Hskip.
  match goal with
  | |- context [printExtraInfo ?cfg ?d ?l] =>
      pose proof (printExtraInfo_never_fails cfg d l) as Hx;
      destruct (printExtraInfo cfg d l) as [ended l']
  end.
  cbn [fst] in Hx. rewrite Hshort in Hx. subst ended. split; reflexivity.
Qed.

End PrintCmdFacts.

(** *** The print command in a concrete setting *)

(** X15, with the extra information printed and no short ID: nil
    returned, the marshalled configuration on the output, two warnings in
    the log. *)
Lemma Run_survives_client_and_dependency_errors_witness :
  let c := print.NewPrintCmd (demo_print.flags "devspace.yaml") demo_print.stdout in
  let r := demo_print.Run c demo_print.st0 in
  fst r = print.Finished None /\
  print.out (snd r) = [("path: devspace.yaml" ++ cmd.newline)%string] /\
  incl [print.Warnf "Unable to create new kubectl client: no kube config";
        print.Warnf "Error resolving dependencies: cache is stale"]
       (print.log (snd r)).
Proof.
  cbn zeta. unfold demo_print.Run.
  apply (@Run_survives_client_and_dependency_errors unit string unit nat
           demo_print.Variables demo_print.Path strings.itoa
           demo_print.ConfigNotFound demo_print.ToConfigOptions
           demo_print.SetDevSpaceRoot demo_print.NewKubeClientFromContext
           demo_print.Load demo_print.Load demo_print.ResolveAll
           demo_print.ExecuteHooks demo_print.GetDependencyByPath
           demo_print.DependencyConfig demo_print.Marshal
           (print.NewPrintCmd (demo_print.flags "devspace.yaml") demo_print.stdout)
           demo_print.st0 None (Some (ShellError "no kube config"))
           "devspace.yaml"%string
           [types.Dep "api" "0123456789" [types.Dep "db" "abcdef" []]]
           (Some (ShellError "cache is stale"))
           "devspace.yaml"%string
           ("path: devspace.yaml" ++ cmd.newline)%string demo_print.stdout);
    try reflexivity.
  right. reflexivity.
Defined.

(** X13, on the command with its default flags: the one byte string on
    the output is what [Marshal] made of the loaded configuration. *)
Lemma Run_writes_Out_at_most_once_witness :
  let c := print.NewPrintCmd (demo_print.flags "devspace.yaml") demo_print.stdout in
  let r := demo_print.Run c demo_print.st0 in
  exists yaml,
    demo_print.Marshal "devspace.yaml"%string = (yaml, None) /\
    print.out (snd r) = [yaml] /\
    fst r = print.Finished (demo_print.stdout yaml).
Proof.
  cbn zeta. unfold demo_print.Run.
  destruct (@Run_writes_Out_at_most_once unit string unit nat
              demo_print.Variables demo_print.Path strings.itoa
              demo_print.ConfigNotFound demo_print.ToConfigOptions
              demo_print.SetDevSpaceRoot demo_print.NewKubeClientFromContext
              demo_print.Load demo_print.Load demo_print.ResolveAll
              demo_print.ExecuteHooks demo_print.GetDependencyByPath
              demo_print.DependencyConfig demo_print.Marshal
              (print.NewPrintCmd (demo_print.flags "devspace.yaml")
                                 demo_print.stdout)
              demo_print.st0)
    as [[H _] | (write & client & cerr & config & deps & derr & config' & yaml
                 & Hout & Hclient & Hload & Hdeps & Hsel & Hyaml & Ho & Hf)].
  - discriminate H.
  - exists yaml. injection Hout as <-. injection Hclient as <- <-.
    injection Hload as <-. injection Hsel as <-.
    repeat split; assumption.
Defined.

(** X16, with the dependency flag naming a dependency that is not there. *)
Lemma Run_reports_the_missing_dependency_witness :
  let c := {| print.Flags := demo_print.flags "devspace.yaml";
              print.Out := Some demo_print.stdout;
              print.SkipInfo := false; print.EagerVars := false;
              print.Dependency := "billing" |} in
  exists e,
    fst (demo_print.Run c demo_print.st0) = print.Finished (Some e) /\
    strings.Contains (Error e) "billing" = true /\
    print.out (snd (demo_print.Run c demo_print.st0)) = [].
Proof.
  cbn zeta. unfold demo_print.Run.
  apply (@Run_reports_the_missing_dependency unit string unit nat
           demo_print.Variables demo_print.Path strings.itoa
           demo_print.ConfigNotFound demo_print.ToConfigOptions
           demo_print.SetDevSpaceRoot demo_print.NewKubeClientFromContext
           demo_print.Load demo_print.Load demo_print.ResolveAll
           demo_print.ExecuteHooks demo_print.GetDependencyByPath
           demo_print.DependencyConfig demo_print.Marshal
           {| print.Flags := demo_print.flags "devspace.yaml";
              print.Out := Some demo_print.stdout;
              print.SkipInfo := false; print.EagerVars := false;
              print.Dependency := "billing" |}
           demo_print.st0 None (Some (ShellError "no kube config"))
           "devspace.yaml"%string
           [types.Dep "api" "0123456789" [types.Dep "db" "abcdef" []]]
           (Some (ShellError "cache is stale")));
    try reflexivity.
  discriminate.
Defined.

(** X17, on the command with its default flags and a dependency whose ID
    has four bytes. *)
Lemma Run_panics_on_a_short_dependency_ID_witness :
  let c := print.NewPrintCmd (demo_print.flags "short.yaml") demo_print.stdout in
  fst (demo_print.Run c demo_print.st0) = print.Crashed /\
  print.out (snd (demo_print.Run c demo_print.st0)) = [].
Proof.
  cbn zeta. unfold demo_print.Run.
  apply (@Run_panics_on_a_short_dependency_ID unit string unit nat
           demo_print.Variables demo_print.Path strings.itoa
           demo_print.ConfigNotFound demo_print.ToConfigOptions
           demo_print.SetDevSpaceRoot demo_print.NewKubeClientFromContext
           demo_print.Load demo_print.Load demo_print.ResolveAll
           demo_print.ExecuteHooks demo_print.GetDependencyByPath
           demo_print.DependencyConfig demo_print.Marshal
           (print.NewPrintCmd (demo_print.flags "short.yaml") demo_print.stdout)
           demo_print.st0 None (Some (ShellError "no kube config"))
           "short.yaml"%string
           [types.Dep "api" "0123456789" [types.Dep "db" "abcd" []]]
           (Some (ShellError "cache is stale"))
           "short.yaml"%string
           ("path: short.yaml" ++ cmd.newline)%string);
    reflexivity.
Defined.
